(** * cobra-modules: the module runner (module.go)

    A shallow embedding of [RunModules], [NewModuleRunner] and
    [BindModuleFlags].  [RunModules] is concurrent: the calling goroutine,
    the outer goroutine it launches and one goroutine per module are
    modelled as program counters over the shared objects of the function
    (the error channel, the WaitGroup, the sync.Once and the derived
    context), and an execution is a list of atomic steps (a schedule). *)

From Stdlib Require Import ZArith Lia Ascii String List.
From stdpp Require Import base option list strings gmap.

Local Open Scope string_scope.
Local Open Scope list_scope.

(** ** go.uber.org/multierr

    External library.  Only what [RunModules] uses is modelled: [Append],
    the flat list of errors a combined error holds, and the single-line
    rendering of [Error()], which joins the messages with "; ".  An error
    that is not a multierr is represented by its message. *)
Module multierr.

Inductive error :=
  | errorString (s : string)
  | multiError (errors : list string).

Definition singlelineSeparator : string := "; ".

Definition Errors (e : error) : list string :=
  match e with
  | errorString s => [s]
  | multiError errors => errors
  end.

Definition Error (e : error) : string :=
  match e with
  | errorString s => s
  | multiError errors => String.concat singlelineSeparator errors
  end.

(** [Append(left, right)]: nil operands are dropped, otherwise the errors of
    both sides are flattened into one multiError, left before right. *)
Definition Append (l r : option error) : option error :=
  match l, r with
  | None, _ => r
  | _, None => l
  | Some a, Some b => Some (multiError (Errors a ++ Errors b))
  end.

(** The message of an [error] value that may be nil ("" stands for the
    absence of an error, as in the test table of module_test.go). *)
Definition message (e : option error) : string :=
  match e with
  | None => ""
  | Some a => Error a
  end.

(** multierr never builds a multiError without errors inside. *)
Definition wf_error (e : error) : Prop := Errors e <> [].

End multierr.
Export multierr.

(** ** context.Context

    The caller's context is either [context.Background()], which is never
    cancelled, or a cancellable context with its current Done flag. *)
Inductive context :=
  | Background
  | WithCancel (done : bool).

Definition Done (ctx : context) : bool :=
  match ctx with
  | Background => false
  | WithCancel d => d
  end.

(** ** pflag / cobra (external), as far as BindModuleFlags touches them

    Flag values live in a heap of string cells, a flag set maps a flag name
    to the cell it is bound to, and a command owns one flag set. *)
Definition loc := nat.

Record World := {
  heap : gmap loc string;
  flagsets : gmap nat (gmap string loc);
}.

Record Command := {
  Use : string;
  Flags : nat;            (* c.Flags(): the flag set owned by the command *)
}.

(** [flagSet.StringVar(p, name, value, usage)]: the cell [p] receives the
    default value and the flag [name] is bound to [p].  This is the
    behaviour for a flag that is new to the flag set; pflag panics when a
    flag is defined twice, which is not modelled, so the properties below
    that register flags are stated for names new to the command. *)
Definition StringVar (fs : nat) (p : loc) (name value : string) (w : World) : World :=
  {| heap := <[p := value]> (heap w);
     flagsets := <[fs := <[name := p]> (default ∅ (flagsets w !! fs))]> (flagsets w) |}.

(** [flagSet.Set(name, value)]: writes through the bound pointer; unknown
    flags are an error. *)
Definition Set_ (fs : nat) (name value : string) (w : World) : option World :=
  flags ← flagsets w !! fs;
  p ← flags !! name;
  Some {| heap := <[p := value]> (heap w); flagsets := flagsets w |}.

(** ** The Module interface

    An interface value: the identity of the instance behind the pointer and
    its two methods.  [Start] blocks, so it is given as what a poll of the
    running call yields for the current state of [ctx.Done()]: [None] while
    the call is still blocked, [Some err] once it returns [err].  When a
    call that can return does return is left to the schedule. *)
Record module := {
  addr : nat;
  BindFlags : nat -> World -> World;
  Start : bool -> option (option error);
}.

(** The modules of module_test.go. *)
Definition noopModule (a : nat) (err : option error) : module :=
  {| addr := a;
     BindFlags := fun _ w => w;
     Start := fun _ => Some err |}.

Definition waitStopModule (a : nat) (err : option error) : module :=
  {| addr := a;
     BindFlags := fun _ w => w;
     Start := fun done => if done then Some err else None |}.

(** [flagModule]: the cell [flagValue] is the field m.flagValue of the
    instance. *)
Definition flagModule (a : nat) (flagName : string) (flagValue : loc) : module :=
  {| addr := a;
     BindFlags := fun fs w => StringVar fs flagValue flagName "default" w;
     Start := fun _ => Some None |}.

(** ** RunModules: state of one invocation *)

(** The calling goroutine: before the [go] statement, in the
    [for err := range errCh] loop, or returned. *)
Inductive main_pc := MInit | MRange | MReturned.

(** The outer goroutine: not launched yet, at [wg.Add], in the launch loop
    about to handle index [k], at [wg.Wait], at [close(errCh)], finished. *)
Inductive outer_pc := ONotLaunched | OAdd | OLoop (k : nat) | OWait | OClose | OEnd.

(** A module goroutine: inside [m.Start(ctx)], at the [if err != nil] send,
    at [wg.Done()], at [stopCloseOnce.Do], finished. *)
Inductive module_pc := GStart | GReport | GDone | GOnce | GEnd.

#[global] Instance main_pc_eq_dec : EqDecision main_pc.
Proof. solve_decision. Defined.

#[global] Instance outer_pc_eq_dec : EqDecision outer_pc.
Proof. solve_decision. Defined.

#[global] Instance module_pc_eq_dec : EqDecision module_pc.
Proof. solve_decision. Defined.

Record goroutine := {
  pc : module_pc;
  err : option error;     (* the local [err], nil until Start returns *)
}.

Record state := {
  main : main_pc;
  result : option error;       (* var result error *)
  outer : outer_pc;
  gs : list goroutine;         (* module goroutines launched so far *)
  wg : Z;                      (* counter of the WaitGroup *)
  closed : bool;               (* errCh has been closed *)
  once : bool;                 (* stopCloseOnce has run its function *)
  ctx_done : bool;             (* Done of the derived context *)
  parent : context;            (* the caller's context *)
  panicked : bool;
}.

Definition init (ctx : context) : state :=
  {| main := MInit; result := None; outer := ONotLaunched; gs := [];
     wg := 0; closed := false; once := false; ctx_done := Done ctx;
     parent := ctx; panicked := false |}.

Definition set_main (x : main_pc) (s : state) : state :=
  {| main := x; result := result s; outer := outer s; gs := gs s; wg := wg s;
     closed := closed s; once := once s; ctx_done := ctx_done s;
     parent := parent s; panicked := panicked s |}.

Definition set_result (x : option error) (s : state) : state :=
  {| main := main s; result := x; outer := outer s; gs := gs s; wg := wg s;
     closed := closed s; once := once s; ctx_done := ctx_done s;
     parent := parent s; panicked := panicked s |}.

Definition set_outer (x : outer_pc) (s : state) : state :=
  {| main := main s; result := result s; outer := x; gs := gs s; wg := wg s;
     closed := closed s; once := once s; ctx_done := ctx_done s;
     parent := parent s; panicked := panicked s |}.

Definition set_gs (x : list goroutine) (s : state) : state :=
  {| main := main s; result := result s; outer := outer s; gs := x; wg := wg s;
     closed := closed s; once := once s; ctx_done := ctx_done s;
     parent := parent s; panicked := panicked s |}.

Definition set_wg (x : Z) (s : state) : state :=
  {| main := main s; result := result s; outer := outer s; gs := gs s; wg := x;
     closed := closed s; once := once s; ctx_done := ctx_done s;
     parent := parent s; panicked := panicked s |}.

Definition set_closed (x : bool) (s : state) : state :=
  {| main := main s; result := result s; outer := outer s; gs := gs s; wg := wg s;
     closed := x; once := once s; ctx_done := ctx_done s;
     parent := parent s; panicked := panicked s |}.

Definition set_once (x : bool) (s : state) : state :=
  {| main := main s; result := result s; outer := outer s; gs := gs s; wg := wg s;
     closed := closed s; once := x; ctx_done := ctx_done s;
     parent := parent s; panicked := panicked s |}.

Definition set_ctx_done (x : bool) (s : state) : state :=
  {| main := main s; result := result s; outer := outer s; gs := gs s; wg := wg s;
     closed := closed s; once := once s; ctx_done := x;
     parent := parent s; panicked := panicked s |}.

Definition set_parent (x : context) (s : state) : state :=
  {| main := main s; result := result s; outer := outer s; gs := gs s; wg := wg s;
     closed := closed s; once := once s; ctx_done := ctx_done s;
     parent := x; panicked := panicked s |}.

Definition panic (s : state) : state :=
  {| main := main s; result := result s; outer := outer s; gs := gs s; wg := wg s;
     closed := closed s; once := once s; ctx_done := ctx_done s;
     parent := parent s; panicked := true |}.

(** Goroutine [i], currently [g], moves to program counter [p]. *)
Definition goto (i : nat) (g : goroutine) (p : module_pc) (s : state) : state :=
  set_gs (<[i := {| pc := p; err := err g |}]> (gs s)) s.

(** ** Atomic steps

    One label per statement that synchronises with another goroutine.  The
    unbuffered send [errCh <- err] and the receive of the range loop are one
    joint step; the body of the range loop, [multierr.Append], is part of
    it. *)
Inductive label :=
  | LMain                  (* the calling goroutine: lines 42-52, or the end of the range loop *)
  | LOuter                 (* the outer goroutine's next statement *)
  | LStart (i : nat)       (* m.Start(ctx) of goroutine i returns *)
  | LSend (i : nat)        (* errCh <- err of goroutine i meets the receive of the range loop *)
  | LNoErr (i : nat)       (* err == nil: the send is skipped *)
  | LDone (i : nat)        (* wg.Done() *)
  | LOnceFire (i : nat)    (* stopCloseOnce.Do runs cancel() *)
  | LOnceSkip (i : nat)    (* stopCloseOnce.Do finds the Once already done *)
  | LParentCancel.         (* the caller's context is cancelled *)

(** The calling goroutine: lines 42-52 up to the [go] statement, then the
    range loop of lines 75-77, which ends when the channel is closed. *)
Definition step_main (s : state) : option state :=
  match main s with
  | MInit => Some (set_outer OAdd (set_main MRange s))
  | MRange => if closed s then Some (set_main MReturned s) else None
  | MReturned => None
  end.

(** The outer goroutine, lines 52-71: [wg.Add(len(modules))], one [go]
    statement per module, [wg.Wait()], [close(errCh)]. *)
Definition step_outer (modules : list module) (s : state) : option state :=
  match outer s with
  | ONotLaunched => None
  | OAdd => Some (set_outer (OLoop 0) (set_wg (wg s + Z.of_nat (length modules)) s))
  | OLoop k =>
      match modules !! k with
      | Some _ =>
          Some (set_outer (OLoop (S k))
                  (set_gs (gs s ++ [ {| pc := GStart; err := None |} ]) s))
      | None => Some (set_outer OWait s)
      end
  | OWait => if (wg s =? 0)%Z then Some (set_outer OClose s) else None
  | OClose => Some (set_outer OEnd (set_closed true s))
  | OEnd => None
  end.

(** The goroutine of module [i], lines 57-66, in the order of the source:
    [err := m.Start(ctx)], the send if [err != nil], [wg.Done()],
    [stopCloseOnce.Do(func() { cancel() })].  A send on the closed channel
    and a negative WaitGroup counter panic. *)
Definition step_module (modules : list module) (i : nat) (l : label)
    (g : goroutine) (s : state) : option state :=
  match l, pc g with
  | LStart _, GStart =>
      m ← modules !! i;
      r ← Start m (ctx_done s);
      Some (set_gs (<[i := {| pc := GReport; err := r |}]> (gs s)) s)
  | LSend _, GReport =>
      match err g with
      | Some e =>
          if closed s then Some (panic s)
          else match main s with
               | MRange => Some (goto i g GDone (set_result (Append (result s) (Some e)) s))
               | _ => None
               end
      | None => None
      end
  | LNoErr _, GReport =>
      match err g with
      | None => Some (goto i g GDone s)
      | Some _ => None
      end
  | LDone _, GDone =>
      if (wg s <=? 0)%Z then Some (panic s)
      else Some (goto i g GOnce (set_wg (wg s - 1) s))
  | LOnceFire _, GOnce =>
      if once s then None
      else Some (goto i g GEnd (set_ctx_done true (set_once true s)))
  | LOnceSkip _, GOnce =>
      if once s then Some (goto i g GEnd s) else None
  | _, _ => None
  end.

Definition step (modules : list module) (s : state) (l : label) : option state :=
  if panicked s then None else
  match l with
  | LMain => step_main s
  | LOuter => step_outer modules s
  | LStart i | LSend i | LNoErr i | LDone i | LOnceFire i | LOnceSkip i =>
      g ← gs s !! i; step_module modules i l g s
  | LParentCancel =>
      match parent s with
      | WithCancel false => Some (set_ctx_done true (set_parent (WithCancel true) s))
      | _ => None
      end
  end.

Definition schedule := list label.

Fixpoint run (modules : list module) (sched : schedule) (s : state) : option state :=
  match sched with
  | [] => Some s
  | l :: sched' => s' ← step modules s l; run modules sched' s'
  end.

(** [RunModules ctx modules] under a schedule: the error it returns, if the
    schedule is an execution at whose end the calling goroutine has
    returned. *)
Definition RunModules (ctx : context) (modules : list module) (sched : schedule)
    : option (option error) :=
  s ← run modules sched (init ctx);
  match main s with
  | MReturned => Some (result s)
  | _ => None
  end.

(** [NewModuleRunner]: the RunE closure. *)
Definition NewModuleRunner (ctx : context) (modules : list module)
    : Command -> list string -> schedule -> option (option error) :=
  fun c args => RunModules ctx modules.

(** ** Observations on an execution *)

(** The goroutines whose error was received by the range loop, in the order
    of arrival. *)
Definition arrivals (sched : schedule) : list nat :=
  flat_map (fun l => match l with LSend i => [i] | _ => [] end) sched.

(** The errors received, in the order of arrival, read off the goroutines'
    [err] variables in state [s]. *)
Definition err_at (l : list goroutine) (i : nat) : option error :=
  g ← l !! i; err g.

Definition arrived (sched : schedule) (s : state) : list error :=
  omap (err_at (gs s)) (arrivals sched).

(** How many times [cancel()] was called. *)
Definition fires (sched : schedule) : nat :=
  sum_list_with (fun l => match l with LOnceFire _ => 1 | _ => 0 end) sched.

(** A goroutine that has not yet called [wg.Done()]. *)
Definition before_done (g : goroutine) : bool :=
  match pc g with
  | GStart | GReport | GDone => true
  | GOnce | GEnd => false
  end.

Definition pending (l : list goroutine) : nat :=
  sum_list_with (fun g => if before_done g then 1 else 0) l.

(** A goroutine whose error has been received. *)
Definition sent (g : goroutine) : bool :=
  match pc g, err g with
  | (GDone | GOnce | GEnd), Some _ => true
  | _, _ => false
  end.

(** Goroutine [i] is inside a [Start] call that does not return in the
    current state of the context. *)
Definition blocked_in_Start (modules : list module) (s : state) (i : nat) : Prop :=
  exists g m, gs s !! i = Some g /\ pc g = GStart /\ modules !! i = Some m /\
              Start m (ctx_done s) = None.

(** No statement of the program can execute (the caller's context may still
    be cancelled from outside). *)
Definition quiescent (modules : list module) (s : state) : Prop :=
  forall l, l <> LParentCancel -> step modules s l = None.

(** The statements that can possibly execute when [n] module goroutines have
    been launched. *)
Definition program_labels (n : nat) : list label :=
  [LMain; LOuter] ++
  flat_map (fun i => [LStart i; LSend i; LNoErr i; LDone i; LOnceFire i; LOnceSkip i])
           (seq 0 n).

(** Number of statements left to execute, used to bound every execution. *)
Definition rank_main (n : nat) (p : main_pc) : nat :=
  match p with MInit => 5 * n + 6 | MRange => 1 | MReturned => 0 end.

Definition rank_outer (n : nat) (p : outer_pc) : nat :=
  match p with
  | ONotLaunched => 0
  | OAdd => 5 * n + 4
  | OLoop k => 5 * (n - k) + 3
  | OWait => 2
  | OClose => 1
  | OEnd => 0
  end.

Definition rank_module (g : goroutine) : nat :=
  match pc g with GStart => 4 | GReport => 3 | GDone => 2 | GOnce => 1 | GEnd => 0 end.

Definition rank_parent (ctx : context) : nat :=
  match ctx with WithCancel false => 1 | _ => 0 end.

Definition measure (modules : list module) (s : state) : nat :=
  if panicked s then 0
  else 1 + rank_main (length modules) (main s) + rank_outer (length modules) (outer s)
       + sum_list_with rank_module (gs s) + rank_parent (parent s).

(** ** BindModuleFlags *)

(** Method calls on module instances, by the address of the instance. *)
Inductive event :=
  | EvBindFlags (m : nat) (flagSet : nat)
  | EvStart (m : nat).

Definition BindModuleFlags (modules : list module) (c : Command)
    (tw : list event * World) : list event * World :=
  fold_left
    (fun tw m => (tw.1 ++ [EvBindFlags (addr m) (Flags c)], BindFlags m (Flags c) tw.2))
    modules tw.

(** cobra's [Execute], as far as the tests rely on it: flags of the form
    [--name value] are parsed into the command's flag set, then RunE runs
    with the remaining arguments.

    Only the long form with a separate value is covered, for names for
    which pflag reads the argument this way: the name is not empty, does
    not start with '-' or '=' (pflag reports bad flag syntax, and a bare
    [--] ends the flags) and contains no '=' (pflag splits [--name=value]
    there).  [None] stands for an error of the library or for an argument
    outside this fragment. *)
Fixpoint no_equals (s : string) : bool :=
  match s with
  | EmptyString => true
  | String c s' => if Ascii.eqb c "="%char then false else no_equals s'
  end.

Definition plain_name (name : string) : bool :=
  match name with
  | EmptyString => false
  | String c _ => negb (Ascii.eqb c "-"%char) && no_equals name
  end.

Definition flag_name (arg : string) : option string :=
  match arg with
  | String "-"%char (String "-"%char name) =>
      if plain_name name then Some name else None
  | _ => None
  end.

Fixpoint ParseFlags (fs : nat) (args : list string) (w : World) : option World :=
  match args with
  | [] => Some w
  | a :: value :: rest =>
      name ← flag_name a; w' ← Set_ fs name value w; ParseFlags fs rest w'
  | _ => None
  end.

Definition Execute {R} (c : Command) (RunE : Command -> list string -> R)
    (args : list string) (w : World) : option (World * R) :=
  w' ← ParseFlags (Flags c) args w; Some (w', RunE c []).

(** ** Registration of several flag modules *)

(** A flag module instance with the value given to its flag on the command
    line: the name of the flag, the cell of the field flagValue, the
    value. *)
Definition flagSpec : Type := string * loc * string.

Definition flagModuleOf (x : flagSpec) : module := flagModule 0 x.1.1 x.1.2.

Definition flagArgs (specs : list flagSpec) : list string :=
  flat_map (fun x : flagSpec => [("--" ++ x.1.1)%string; x.2]) specs.

(** The cell flag [name] of flag set [fs] is bound to. *)
Definition bound (fs : nat) (name : string) (w : World) : option loc :=
  flags ← flagsets w !! fs; flags !! name.

(** ** The tests of module_test.go *)
Module tests.

Definition noErrors : list module :=
  [noopModule 0 None; waitStopModule 1 None; waitStopModule 2 None; waitStopModule 3 None].

Definition singleError : list module :=
  [noopModule 0 (Some (errorString "test-error-1")); waitStopModule 1 None].

Definition multipleErrors : list module :=
  [noopModule 0 (Some (errorString "test-error-1"));
   waitStopModule 1 (Some (errorString "test-error-2"))].

(** Schedules in which the module goroutines run one after the other: the
    launch of [n] goroutines, the statements of goroutine [i] (the first one
    to reach the Once runs [cancel()]), and the end of the outer and of the
    calling goroutine. *)
Definition launch (n : nat) : schedule := [LMain; LOuter] ++ replicate (S n) LOuter.
Definition finish : schedule := [LOuter; LOuter; LMain].
Definition with_error (i : nat) (first : bool) : schedule :=
  [LStart i; LSend i; LDone i; if first then LOnceFire i else LOnceSkip i].
Definition without_error (i : nat) (first : bool) : schedule :=
  [LStart i; LNoErr i; LDone i; if first then LOnceFire i else LOnceSkip i].

Definition noErrors_schedule : schedule :=
  launch 4 ++ without_error 0 true ++ without_error 1 false ++ without_error 2 false
  ++ without_error 3 false ++ finish.

Definition singleError_schedule : schedule :=
  launch 2 ++ with_error 0 true ++ without_error 1 false ++ finish.

Definition multipleErrors_schedule : schedule :=
  launch 2 ++ with_error 0 true ++ with_error 1 false ++ finish.

(** The calling goroutine returns right after the last [wg.Done()], before
    the goroutine of the only module has reached [stopCloseOnce.Do]. *)
Definition early_return_schedule : schedule :=
  launch 1 ++ [LStart 0; LNoErr 0; LDone 0] ++ finish.

(** The states these schedules lead to. *)
Definition multipleErrors_final : state :=
  {| main := MReturned;
     result := Some (multiError ["test-error-1"; "test-error-2"]);
     outer := OEnd;
     gs := [ {| pc := GEnd; err := Some (errorString "test-error-1") |};
             {| pc := GEnd; err := Some (errorString "test-error-2") |} ];
     wg := 0; closed := true; once := true; ctx_done := true;
     parent := Background; panicked := false |}.

(** [noErrors] once the first module has returned nil and its goroutine has
    called [wg.Done()]. *)
Definition noErrors_first_done : state :=
  {| main := MRange; result := None; outer := OWait;
     gs := [ {| pc := GOnce; err := None |}; {| pc := GStart; err := None |};
             {| pc := GStart; err := None |}; {| pc := GStart; err := None |} ];
     wg := 3; closed := false; once := false; ctx_done := false;
     parent := Background; panicked := false |}.

(** [multipleErrors] once the first module has returned its error. *)
Definition multipleErrors_first_returned : state :=
  {| main := MRange; result := None; outer := OWait;
     gs := [ {| pc := GReport; err := Some (errorString "test-error-1") |};
             {| pc := GStart; err := None |} ];
     wg := 2; closed := false; once := false; ctx_done := false;
     parent := Background; panicked := false |}.

(** TestBindModuleFlags: one flagModule instance, whose field flagValue is
    cell 7, registered and run through the same slice. *)
Definition testCmd : Command := {| Use := "test"; Flags := 0 |}.
Definition flagModules : list module := [flagModule 0 "test-flag" 7].
Definition emptyWorld : World := {| heap := ∅; flagsets := ∅ |}.

Definition TestBindModuleFlags (sched : schedule) : option (option string * option (option error)) :=
  let RunE := NewModuleRunner Background flagModules in
  let tw := BindModuleFlags flagModules testCmd ([], emptyWorld) in
  '(w, run_) ← Execute testCmd RunE ["--test-flag"; "test-flag-value"] tw.2;
  Some (heap w !! 7, run_ sched).

End tests.

(** ** Invariants of an execution *)

(** Number of module goroutines the outer goroutine has launched, whether
    it has executed [wg.Add], whether [wg.Wait] has returned, whether it
    has closed the channel. *)
Definition launched (n : nat) (o : outer_pc) : nat :=
  match o with
  | ONotLaunched | OAdd => 0
  | OLoop k => k
  | OWait | OClose | OEnd => n
  end.

Definition added (o : outer_pc) : bool :=
  match o with ONotLaunched | OAdd => false | _ => true end.

Definition joined (o : outer_pc) : bool :=
  match o with OClose | OEnd => true | _ => false end.

Definition is_OEnd (o : outer_pc) : bool :=
  match o with OEnd => true | _ => false end.

Record Inv (modules : list module) (s : state) : Prop := {
  inv_panic : panicked s = false;
  inv_gs : length (gs s) = launched (length modules) (outer s);
  inv_k : launched (length modules) (outer s) <= length modules;
  inv_wg :
    wg s = if added (outer s)
           then Z.of_nat (length modules - length (gs s) + pending (gs s))
           else 0%Z;
  inv_joined : joined (outer s) = true -> pending (gs s) = 0;
  inv_closed : closed s = is_OEnd (outer s);
  inv_main :
    match main s with
    | MInit => outer s = ONotLaunched
    | MRange => outer s <> ONotLaunched
    | MReturned => outer s = OEnd
    end;
  inv_end : forall i g, gs s !! i = Some g -> pc g = GEnd -> once s = true;
  inv_once :
    once s = true ->
    ctx_done s = true /\ exists i g, gs s !! i = Some g /\ pc g = GEnd;
  inv_ctx : ctx_done s = true -> once s = true \/ Done (parent s) = true;
  inv_parent : Done (parent s) = true -> ctx_done s = true;
  inv_err :
    forall i g, gs s !! i = Some g ->
      match pc g with
      | GStart => err g = None
      | _ => exists m c, modules !! i = Some m /\ Start m c = Some (err g) /\
                         (c = true -> ctx_done s = true)
      end;
}.

(** What holds of the arrivals, the result and the calls of [cancel()]
    after the schedule [sched] has led to state [s]. *)
Record TraceInv (sched : schedule) (s : state) : Prop := {
  tr_nodup : NoDup (arrivals sched);
  tr_sent : forall i, i ∈ arrivals sched <-> exists g, gs s !! i = Some g /\ sent g = true;
  tr_result : result s = foldl Append None (Some <$> arrived sched s);
  tr_fires : fires sched = if once s then 1 else 0;
}.

(** The flat list of errors of an [error] value that may be nil. *)
Definition Errors_opt (e : option error) : list string :=
  match e with None => [] | Some a => Errors a end.

(** * Proofs *)

(** ** Executions and their length *)

Lemma sum_list_with_insert {A} (f : A -> nat) (l : list A) i x y :
  l !! i = Some x ->
  sum_list_with f (<[i := y]> l) + f x = sum_list_with f l + f y.
Proof.
  revert i. induction l as [|a l IH]; intros [|i] Hi; simplify_eq/=; try lia.
  specialize (IH _ Hi). lia.
Qed.

Lemma run_app modules sched1 sched2 s :
  run modules (sched1 ++ sched2) s = s' ← run modules sched1 s; run modules sched2 s'.
Proof.
  revert s. induction sched1 as [|l sched1 IH]; intros s; simpl; [done|].
  destruct (step modules s l); simpl; auto.
Qed.

Lemma run_snoc modules sched l s s' :
  run modules (sched ++ [l]) s = Some s' <->
  exists s1, run modules sched s = Some s1 /\ step modules s1 l = Some s'.
Proof.
  rewrite run_app. split.
  - intros H. destruct (run modules sched s) as [s1|]; simplify_eq/=.
    exists s1. split; [done|]. destruct (step modules s1 l); simplify_eq/=; done.
  - intros (s1 & -> & H). simpl. by rewrite H.
Qed.

(** Inversion of a step: one case per statement that can execute. *)
Ltac step_cases H :=
  unfold step, step_main, step_outer, step_module, goto in H;
  repeat (simplify_option_eq || case_match ||
          match goal with x : goroutine |- _ => destruct x; simpl in * end).

(** Brings in the effect of the update of one goroutine on a sum. *)
Ltac sum_insert :=
  match goal with
  | Hl : ?g !! ?i = Some ?x |- context [sum_list_with ?f (<[?i := ?y]> ?g)] =>
      let a := eval cbv in (f x) in
      let b := eval cbv in (f y) in
      let Hs := fresh "Hs" in
      pose proof (sum_list_with_insert f g i x y Hl) as Hs;
      change (f x) with a in Hs; change (f y) with b in Hs
  end.

Lemma step_measure modules s l s' :
  step modules s l = Some s' -> measure modules s' < measure modules s.
Proof.
  intros H. destruct s as [m r o g w c on cd p pn].
  unfold measure. step_cases H; simpl in *; try lia.
  - apply lookup_lt_Some in H0. rewrite sum_list_with_app. simpl. lia.
  - sum_insert. lia.
  - sum_insert. lia.
  - sum_insert. lia.
  - sum_insert. lia.
  - sum_insert. lia.
  - sum_insert. lia.
Qed.

Lemma run_bounded modules sched s s' :
  run modules sched s = Some s' ->
  length sched + measure modules s' <= measure modules s.
Proof.
  revert s. induction sched as [|l sched IH]; intros s H; simplify_eq/=; [lia|].
  destruct (step modules s l) as [s1|] eqn:Hstep; simplify_eq/=.
  apply step_measure in Hstep. apply IH in H. lia.
Qed.

(** ** The state invariant *)

Lemma Inv_init modules ctx : Inv modules (init ctx).
Proof.
  split; simpl; try done; try lia.
  intros H. by right.
Qed.

Lemma pending_pos (l : list goroutine) i x :
  l !! i = Some x -> before_done x = true -> 0 < pending l.
Proof.
  intros Hl Hx. apply list_elem_of_lookup_2 in Hl.
  pose proof (sum_list_with_in x (fun g => if before_done g then 1 else 0) l Hl) as H.
  unfold pending. simpl in H. rewrite Hx in H. lia.
Qed.

Ltac lookup_cases :=
  let j := fresh "j" in let g' := fresh "g'" in let Hj := fresh "Hj" in
  intros j g' Hj;
  first
    [ apply list_lookup_insert_Some in Hj as [(-> & <- & Hj) | (? & Hj)]
    | apply lookup_snoc_Some in Hj as [(? & Hj) | (-> & <-)] ];
  simpl.

(** The witness of a finished goroutine survives the update of another. *)
Ltac keep_witness H :=
  let i0 := fresh "i0" in let g0 := fresh "g0" in
  let Hl := fresh "Hl" in let Hp := fresh "Hp" in
  destruct H as (? & i0 & g0 & Hl & Hp);
  split; [done|]; exists i0, g0; split; [|done];
  first [ by apply lookup_app_l_Some
        | rewrite list_lookup_insert_ne; [done|]; intros ->; simplify_eq/= ].

Lemma Inv_step modules s l s' :
  Inv modules s -> step modules s l = Some s' -> Inv modules s'.
Proof.
  intros HI H.
  destruct s as [m r o g w c on cd p pn].
  step_cases H;
    destruct HI as [Ipanic Igs Ik Iwg Ijoined Iclosed Imain Iend Ionce Ictx Iparent Ierr];
    simpl in *;
    try match goal with
      | Hl : ?g !! _ = Some ?x |- _ =>
          try pose proof (pending_pos g _ x Hl eq_refl) as Hpos;
          pose proof (lookup_lt_Some _ _ _ Hl) as Hlt;
          pose proof (Ierr _ _ Hl) as Hold; simpl in Hold
      end;
    try match goal with
      | Hl : _ !! _ = Some _ |- Inv _ (panic _) =>
          exfalso; destruct o; simpl in *; first [done | lia]
      end;
    split; simpl in *;
    rewrite ?length_insert, ?length_app; simpl;
    try done; try lia; try tauto; try (simplify_eq; done);
    try (destruct m; done); try (destruct o; done).
  all: try (intros Hon; keep_witness (Ionce Hon); fail).
  all: try match goal with
    | |- forall i g, _ !! i = Some g -> pc g = GEnd -> _ =>
        lookup_cases; intros; first [done | by eapply Iend]
    | |- forall i g, _ !! i = Some g -> match pc g with _ => _ end =>
        try lookup_cases;
        first [ done | by apply Ierr
              | by eexists _, _; split; [eassumption|]; split; [eassumption|]
              | destruct Hold as (m0 & c0 & ? & ? & ?); by exists m0, c0
              | match goal with
                | Hj : g !! _ = Some ?g' |- _ =>
                    specialize (Ierr _ _ Hj); destruct (pc g'); try done;
                    destruct Ierr as (m0 & c0 & ? & ? & ?); by exists m0, c0
                end
              | intros j g' Hj; specialize (Ierr _ _ Hj); destruct (pc g'); try done;
                destruct Ierr as (m0 & c0 & ? & ? & ?); by exists m0, c0 ]
    | |- true = true -> _ /\ exists i g, <[?i0 := ?y]> _ !! i = Some g /\ _ =>
        intros _; split; [done|]; exists i0, y; split; [by apply list_lookup_insert_eq | done]
    end.
  all: unfold pending in *.
  all: try (sum_insert; destruct (added o) eqn:?; try lia; fail).
  all: try (sum_insert; intros Hjoin; specialize (Ijoined Hjoin); lia).
  - destruct g; simplify_eq/=. lia.
  - apply lookup_lt_Some in H0. lia.
  - apply lookup_lt_Some in H0. rewrite sum_list_with_app. simpl. lia.
  - apply lookup_ge_None in H0. lia.
Qed.

(** ** multierr *)

Lemma string_app_assoc (a b c : string) : ((a ++ b) ++ c = a ++ (b ++ c))%string.
Proof.
  induction a as [|x a IH]; [done|].
  change (String x ((a ++ b) ++ c) = String x (a ++ (b ++ c)))%string.
  by rewrite IH.
Qed.

Lemma concat_cons sep x (l : list string) :
  l <> [] -> String.concat sep (x :: l) = (x ++ sep ++ String.concat sep l)%string.
Proof. by destruct l. Qed.

Lemma concat_app sep (l1 l2 : list string) :
  l1 <> [] -> l2 <> [] ->
  String.concat sep (l1 ++ l2)
  = (String.concat sep l1 ++ sep ++ String.concat sep l2)%string.
Proof.
  intros H1 H2. induction l1 as [|x l1 IH]; [done|].
  destruct l1 as [|y l1].
  - simpl app. by rewrite concat_cons.
  - change ((x :: y :: l1) ++ l2) with (x :: ((y :: l1) ++ l2)).
    rewrite !concat_cons by done. rewrite IH by done.
    by rewrite !string_app_assoc.
Qed.

Lemma Error_concat e : Error e = String.concat singlelineSeparator (Errors e).
Proof. by destruct e. Qed.

Lemma Errors_Append a b : Errors_opt (Append a b) = Errors_opt a ++ Errors_opt b.
Proof. destruct a, b; simpl; by rewrite ?app_nil_r. Qed.

Lemma Errors_foldl (es : list error) acc :
  Errors_opt (foldl Append acc (Some <$> es)) = Errors_opt acc ++ mjoin (Errors <$> es).
Proof.
  revert acc. induction es as [|e es IH]; intros acc; simpl.
  - by rewrite app_nil_r.
  - rewrite IH, Errors_Append. simpl. by rewrite <-app_assoc.
Qed.

Lemma concat_join (es : list error) :
  Forall wf_error es ->
  String.concat singlelineSeparator (mjoin (Errors <$> es))
  = String.concat singlelineSeparator (Error <$> es).
Proof.
  induction 1 as [|e es He Hes IH]; [done|].
  rewrite !fmap_cons.
  change (mjoin (Errors e :: (Errors <$> es))) with (Errors e ++ mjoin (Errors <$> es)).
  destruct es as [|e' es].
  - simpl. rewrite app_nil_r. symmetry. apply Error_concat.
  - rewrite concat_app; [|done|].
    + rewrite IH, (concat_cons _ (Error e)) by done. by rewrite Error_concat.
    + inversion_clear Hes as [|?? He' _]. rewrite fmap_cons.
      change (mjoin (Errors e' :: (Errors <$> es)))
        with (Errors e' ++ mjoin (Errors <$> es)).
      intros [? _]%app_eq_nil. done.
Qed.

Lemma message_foldl (es : list error) :
  Forall wf_error es ->
  message (foldl Append None (Some <$> es))
  = String.concat singlelineSeparator (Error <$> es).
Proof.
  intros Hes. rewrite <-concat_join by done.
  pose proof (Errors_foldl es None) as H. simpl in H. rewrite <-H.
  destruct (foldl Append None (Some <$> es)); simpl; [|done]. apply Error_concat.
Qed.

(** ** The invariant on arrivals *)

Lemma arrivals_snoc sched l :
  arrivals (sched ++ [l]) = arrivals sched ++ match l with LSend i => [i] | _ => [] end.
Proof. unfold arrivals. rewrite flat_map_app. simpl. by rewrite app_nil_r. Qed.

Lemma fires_snoc sched l :
  fires (sched ++ [l]) = fires sched + match l with LOnceFire _ => 1 | _ => 0 end.
Proof. unfold fires. rewrite sum_list_with_app. simpl. lia. Qed.

Section updates.
Context (l : list goroutine) (A : list nat).
Hypothesis HA : forall j, j ∈ A <-> exists g, l !! j = Some g /\ sent g = true.

Lemma sent_snoc y :
  sent y = false ->
  forall j, j ∈ A <-> exists g, (l ++ [y]) !! j = Some g /\ sent g = true.
Proof.
  intros Hy j. rewrite HA. split.
  - intros (g & Hg & Hs). exists g. split; [by apply lookup_app_l_Some|done].
  - intros (g & [(_ & Hg)|(_ & <-)]%lookup_snoc_Some & Hs); [eauto|congruence].
Qed.

Lemma sent_insert i x y :
  l !! i = Some x -> sent y = sent x ->
  forall j, j ∈ A <-> exists g, <[i := y]> l !! j = Some g /\ sent g = true.
Proof.
  intros Hx Hy j. rewrite HA. split.
  - intros (g & Hg & Hs). destruct (decide (i = j)) as [->|Hne].
    + simplify_eq. exists y. split; [|congruence].
      apply list_lookup_insert_eq. by eapply lookup_lt_Some.
    + exists g. by rewrite list_lookup_insert_ne.
  - intros (g & [(-> & <- & _)|(_ & Hg)]%list_lookup_insert_Some & Hs).
    + exists x. split; [done|congruence].
    + eauto.
Qed.

Lemma sent_insert_new i x y :
  l !! i = Some x -> sent x = false -> sent y = true ->
  (i ∉ A) /\
  forall j, j ∈ A ++ [i] <-> exists g, <[i := y]> l !! j = Some g /\ sent g = true.
Proof.
  intros Hx Hsx Hy. split.
  - rewrite HA. intros (g & Hg & Hs). congruence.
  - intros j. rewrite elem_of_app, list_elem_of_singleton, HA. split.
    + intros [(g & Hg & Hs)|Hji]; [|subst j].
      * exists g. rewrite list_lookup_insert_ne; [done|]. intros ->. congruence.
      * exists y. split; [|done]. apply list_lookup_insert_eq. by eapply lookup_lt_Some.
    + intros (g & [(-> & <- & _)|(_ & Hg)]%list_lookup_insert_Some & Hs); eauto.
Qed.

Lemma arrived_ext (l' : list goroutine) :
  (forall j, j ∈ A -> err_at l' j = err_at l j) ->
  omap (err_at l') A = omap (err_at l) A.
Proof.
  clear HA. induction A as [|a A' IH]; intros H; [done|].
  csimpl. rewrite (H a) by left. rewrite IH; [done|].
  intros j Hj. apply H. by right.
Qed.

Lemma err_at_insert i x y j :
  l !! i = Some x -> (j = i -> err y = err x) ->
  err_at (<[i := y]> l) j = err_at l j.
Proof.
  intros Hx Hy. unfold err_at. destruct (decide (i = j)) as [->|Hne].
  - rewrite list_lookup_insert_eq by (by eapply lookup_lt_Some).
    rewrite Hx. simpl. auto.
  - by rewrite list_lookup_insert_ne.
Qed.

Lemma err_at_snoc y j : j ∈ A -> err_at (l ++ [y]) j = err_at l j.
Proof.
  intros (g & Hg & _)%HA. unfold err_at.
  by rewrite (lookup_app_l_Some _ _ _ _ Hg), Hg.
Qed.
End updates.

Lemma TraceInv_init ctx : TraceInv [] (init ctx).
Proof.
  split; simpl; [constructor| |done|done].
  intros i. split; [by intros ?%elem_of_nil|]. by intros (g & ? & _).
Qed.

Lemma TraceInv_step modules sched s l s' :
  Inv modules s -> TraceInv sched s -> step modules s l = Some s' ->
  TraceInv (sched ++ [l]) s'.
Proof.
  intros HI HT H. pose proof (inv_panic _ _ (Inv_step _ _ _ _ HI H)) as Hp.
  clear HI. destruct s as [m r o g w c on cd p pn].
  step_cases H; simpl in *; try done;
    destruct HT as [Tnodup Tsent Tresult Tfires];
    split; unfold arrived in *; rewrite ?arrivals_snoc, ?fires_snoc, ?app_nil_r; simpl in *;
    try done; try lia.
  all: try match goal with
    | |- forall j, j ∈ _ <-> exists g', (_ ++ [_]) !! j = Some g' /\ _ =>
        by apply sent_snoc
    | Hl : _ !! ?i = Some ?x
      |- forall j, j ∈ arrivals _ <-> exists g', <[?i := ?y]> _ !! j = Some g' /\ _ =>
        by apply (sent_insert _ _ Tsent i x y Hl)
    | Hl : _ !! ?i = Some ?x
      |- forall j, j ∈ arrivals _ ++ _ <-> _ =>
        by apply (sent_insert_new _ _ Tsent i x _ Hl)
    | Hl : _ !! ?i = Some ?x |- NoDup (arrivals _ ++ [?i]) =>
        destruct (sent_insert_new _ _ Tsent i x {| pc := GDone; err := err x |} Hl)
          as [Hnotin _]; [done..|];
        apply NoDup_app; split; [done|]; split; [|apply NoDup_singleton];
        by intros ? ? ->%list_elem_of_singleton
    end.
  all: try match goal with
    | |- context [omap _ (_ ++ [_])] =>
        rewrite omap_app, fmap_app, foldl_app
    end.
  all: match goal with
    | |- context [omap (err_at ?l') ?A] =>
        rewrite (arrived_ext g A l'); [rewrite <-Tresult|]
    end.
  all: try done.
  all: try match goal with
    | |- forall j, _ -> err_at (_ ++ [_]) j = _ =>
        intros j Hj; by eapply err_at_snoc
    | Hl : _ !! ?i = Some ?x |- forall j, _ -> err_at (<[?i := ?y]> _) j = _ =>
        intros j Hj; apply (err_at_insert _ i x y j Hl); intros ->; try done;
        apply Tsent in Hj as (g0 & Hg0 & Hs0); by simplify_eq
    end.
  assert (err_at (<[i:={| pc := GDone; err := Some e |}]> g) i = Some e) as Hi.
  { unfold err_at. by rewrite list_lookup_insert_eq by (by eapply lookup_lt_Some). }
  csimpl. by rewrite Hi.
Qed.

(** Every execution satisfies both invariants. *)
Lemma run_invariants modules ctx sched s :
  run modules sched (init ctx) = Some s -> Inv modules s /\ TraceInv sched s.
Proof.
  revert s. induction sched as [|l sched IH] using rev_ind; intros s H.
  - simplify_eq/=. split; [apply Inv_init|apply TraceInv_init].
  - apply run_snoc in H as (s1 & H1 & Hstep). destruct (IH _ H1) as [HI HT].
    split; [by eapply Inv_step|by eapply TraceInv_step].
Qed.

(** ** Progress *)

Lemma pending_witness (l : list goroutine) :
  0 < pending l -> exists i x, l !! i = Some x /\ before_done x = true.
Proof.
  unfold pending. induction l as [|a l IH]; simpl; [lia|].
  destruct (before_done a) eqn:Ha.
  - intros _. by exists 0, a.
  - intros H. destruct IH as (i & x & Hi & Hx); [lia|]. by exists (S i), x.
Qed.

(** A goroutine at the send finds the range loop receiving. *)
Lemma send_ready modules s i g e :
  Inv modules s -> gs s !! i = Some g -> pc g = GReport -> err g = Some e ->
  exists s', step modules s (LSend i) = Some s' /\ panicked s' = false.
Proof.
  intros [Ipanic Igs Ik Iwg Ijoined Iclosed Imain _ _ _ _ _] Hg Hpc He.
  pose proof (pending_pos _ _ _ Hg) as Hpos. unfold before_done in Hpos.
  rewrite Hpc in Hpos. specialize (Hpos eq_refl).
  pose proof (lookup_lt_Some _ _ _ Hg) as Hlt.
  destruct s as [m r o l w c on cd p pn]. simpl in *. subst pn.
  unfold step, step_module. simpl. rewrite Hg. simpl. rewrite Hpc, He.
  destruct o; simpl in *; subst c; destruct m; try done; try lia; eauto.
  all: specialize (Ijoined eq_refl); lia.
Qed.

Lemma progress modules s :
  Inv modules s -> main s <> MReturned ->
  (exists l s', l <> LParentCancel /\ step modules s l = Some s') \/
  (exists i, blocked_in_Start modules s i).
Proof.
  intros HI Hm.
  destruct (main s) eqn:Hmain; [| |done].
  { left. exists LMain. unfold step, step_main. rewrite (inv_panic _ _ HI), Hmain. eauto. }
  destruct (outer s) eqn:Houter.
  - pose proof (inv_main _ _ HI) as H. by rewrite Hmain in H.
  - left. exists LOuter. unfold step, step_outer. rewrite (inv_panic _ _ HI), Houter. eauto.
  - left. exists LOuter. unfold step, step_outer. rewrite (inv_panic _ _ HI), Houter.
    destruct (modules !! k); eauto.
  - destruct (decide (wg s = 0%Z)) as [Hw|Hw].
    { left. exists LOuter. unfold step, step_outer.
      rewrite (inv_panic _ _ HI), Houter, Hw. simpl. eauto. }
    pose proof (inv_wg _ _ HI) as Hwg. pose proof (inv_gs _ _ HI) as Hgs.
    rewrite Houter in Hwg, Hgs. simpl in Hwg, Hgs.
    destruct (pending_witness (gs s)) as (i & x & Hi & Hx); [lia|].
    pose proof (lookup_lt_Some _ _ _ Hi) as Hlt.
    destruct (lookup_lt_is_Some_2 modules i) as [mi Hmi]; [lia|].
    unfold before_done in Hx. destruct (pc x) eqn:Hpc; try done.
    + destruct (Start mi (ctx_done s)) as [r|] eqn:Hstart.
      * left. exists (LStart i). unfold step, step_module.
        rewrite (inv_panic _ _ HI), Hi. simpl. rewrite Hpc, Hmi. simpl.
        rewrite Hstart. simpl. eauto.
      * right. exists i, x, mi. done.
    + left. destruct (err x) as [e|] eqn:He.
      * destruct (send_ready modules s i x e HI Hi Hpc He) as (s' & Hs' & _).
        by exists (LSend i), s'.
      * exists (LNoErr i). unfold step, step_module.
        rewrite (inv_panic _ _ HI), Hi. simpl. rewrite Hpc, He. eauto.
    + left. exists (LDone i). unfold step, step_module.
      rewrite (inv_panic _ _ HI), Hi. simpl. rewrite Hpc.
      destruct (wg s <=? 0)%Z; eauto.
  - left. exists LOuter. unfold step, step_outer. rewrite (inv_panic _ _ HI), Houter. eauto.
  - left. exists LMain. unfold step, step_main. rewrite (inv_panic _ _ HI), Hmain.
    pose proof (inv_closed _ _ HI) as Hc. rewrite Houter in Hc. rewrite Hc. eauto.
Qed.

Lemma program_labels_spec n l :
  l ∈ program_labels n <->
  match l with
  | LMain | LOuter => True
  | LStart i | LSend i | LNoErr i | LDone i | LOnceFire i | LOnceSkip i => i < n
  | LParentCancel => False
  end.
Proof.
  rewrite list_elem_of_In. unfold program_labels. rewrite in_app_iff, in_flat_map.
  split.
  - intros [H|(i & Hi%in_seq & H)]; simpl in H; destruct_or?; simplify_eq; try done; lia.
  - destruct l; intros H; try done; try (left; simpl; tauto).
    all: right; exists i; split; [apply in_seq; lia|simpl; tauto].
Qed.

Lemma step_program_label modules s l s' :
  step modules s l = Some s' -> l <> LParentCancel ->
  l ∈ program_labels (length (gs s)).
Proof.
  intros H Hl. apply program_labels_spec. unfold step in H.
  destruct (panicked s); [done|].
  destruct l; try done;
    destruct (gs s !! i) eqn:Hi; simplify_eq/=; by eapply lookup_lt_Some.
Qed.

Lemma quiescent_dec modules s :
  quiescent modules s \/ exists l s', l <> LParentCancel /\ step modules s l = Some s'.
Proof.
  destruct (decide (Exists (fun l => is_Some (step modules s l))
                      (program_labels (length (gs s))))) as [HE|HN].
  - right. apply Exists_exists in HE as (l & Hl & s' & Hs'). exists l, s'.
    split; [|done]. intros ->. by apply program_labels_spec in Hl.
  - left. intros l Hl. destruct (step modules s l) as [s'|] eqn:Hs'; [|done].
    exfalso. apply HN, Exists_exists. exists l. split; [|by eexists].
    by eapply step_program_label.
Qed.

(** Every state can be run until no statement of the program is left to
    execute, without any help from the caller's context. *)
Lemma run_to_quiescent modules s :
  exists sched s', run modules sched s = Some s' /\ quiescent modules s' /\
                   LParentCancel ∉ sched.
Proof.
  remember (measure modules s) as n eqn:Hn. revert s Hn.
  induction (lt_wf n) as [n _ IH]. intros s ->.
  destruct (quiescent_dec modules s) as [Hq|(l & s1 & Hl & Hs1)].
  - exists [], s. split; [done|]. split; [done|]. apply not_elem_of_nil.
  - destruct (IH _ (step_measure _ _ _ _ Hs1) s1 eq_refl) as (sched & s' & Hrun & Hq & Hno).
    exists (l :: sched), s'. simpl. rewrite Hs1. simpl. split; [done|]. split; [done|].
    intros [?|?]%elem_of_cons; [congruence|done].
Qed.

(** When the calling goroutine has returned, every module has been launched
    and every goroutine has passed [wg.Done()]. *)
Lemma returned_joined modules s :
  Inv modules s -> main s = MReturned ->
  length (gs s) = length modules /\
  forall i g, gs s !! i = Some g -> before_done g = false.
Proof.
  intros HI Hm. pose proof (inv_main _ _ HI) as Ho. rewrite Hm in Ho.
  pose proof (inv_gs _ _ HI) as Hgs. pose proof (inv_joined _ _ HI) as Hj.
  rewrite Ho in Hgs, Hj. simpl in *. split; [done|].
  intros i g Hg. destruct (before_done g) eqn:Hb; [|done].
  pose proof (pending_pos _ _ _ Hg Hb). specialize (Hj eq_refl). lia.
Qed.

Lemma step_ctx_done modules s l s' :
  step modules s l = Some s' -> ctx_done s = true -> ctx_done s' = true.
Proof.
  intros H Hc. destruct s as [m r o g w c on cd p pn]. simpl in Hc. subst cd.
  step_cases H; done.
Qed.

Lemma run_ctx_done modules sched s s' :
  run modules sched s = Some s' -> ctx_done s = true -> ctx_done s' = true.
Proof.
  revert s. induction sched as [|l sched IH]; intros s H Hc; simplify_eq/=; [done|].
  destruct (step modules s l) as [s1|] eqn:Hs; simplify_eq/=.
  eauto using step_ctx_done.
Qed.

(** A goroutine that is past [Start] and not finished can always take its
    next step. *)
Lemma module_step_enabled modules s i g :
  Inv modules s -> gs s !! i = Some g -> pc g <> GStart -> pc g <> GEnd ->
  exists l s', l <> LParentCancel /\ step modules s l = Some s'.
Proof.
  intros HI Hg H1 H2. destruct (pc g) eqn:Hpc; try done.
  - destruct (err g) as [e|] eqn:He.
    + destruct (send_ready modules s i g e HI Hg Hpc He) as (s' & Hs' & _).
      by exists (LSend i), s'.
    + exists (LNoErr i). unfold step, step_module.
      rewrite (inv_panic _ _ HI), Hg. simpl. rewrite Hpc, He. eauto.
  - exists (LDone i). unfold step, step_module.
    rewrite (inv_panic _ _ HI), Hg. simpl. rewrite Hpc.
    destruct (wg s <=? 0)%Z; eauto.
  - destruct (once s) eqn:Hon.
    + exists (LOnceSkip i). unfold step, step_module.
      rewrite (inv_panic _ _ HI), Hg. simpl. rewrite Hpc, Hon. eauto.
    + exists (LOnceFire i). unfold step, step_module.
      rewrite (inv_panic _ _ HI), Hg. simpl. rewrite Hpc, Hon. eauto.
Qed.

(** In a state where no statement can execute, every module has been
    launched. *)
Lemma quiescent_launched modules s :
  Inv modules s -> quiescent modules s -> length (gs s) = length modules.
Proof.
  intros HI Hq. pose proof (inv_gs _ _ HI) as Hgs.
  pose proof (inv_main _ _ HI) as Hm. pose proof (inv_k _ _ HI) as Hk.
  destruct (outer s) eqn:Ho; simpl in *; try done.
  - destruct (main s) eqn:Hmain; try done.
    specialize (Hq LMain). unfold step, step_main in Hq.
    rewrite (inv_panic _ _ HI), Hmain in Hq. by specialize (Hq ltac:(done)).
  - specialize (Hq LOuter). unfold step, step_outer in Hq.
    rewrite (inv_panic _ _ HI), Ho in Hq. by specialize (Hq ltac:(done)).
  - specialize (Hq LOuter). unfold step, step_outer in Hq.
    rewrite (inv_panic _ _ HI), Ho in Hq. destruct (modules !! k); by specialize (Hq ltac:(done)).
Qed.

(** A complete execution in which no [Start] call is left blocked has
    returned. *)
Lemma quiescent_returned modules s :
  Inv modules s -> quiescent modules s ->
  (forall i, ~ blocked_in_Start modules s i) -> main s = MReturned.
Proof.
  intros HI Hq Hb. destruct (decide (main s = MReturned)) as [|Hm]; [done|].
  exfalso. destruct (progress modules s HI Hm) as [(l & s' & Hl & Hs)|(i & Hi)].
  - rewrite Hq in Hs; done.
  - by eapply Hb.
Qed.

(** If every module returns once the context is cancelled, and the context
    is cancelled or some module returns on its own, no [Start] call stays
    blocked when the execution is complete. *)
Lemma quiescent_unblocked modules s :
  Inv modules s -> quiescent modules s ->
  (forall m, m ∈ modules -> Start m true <> None) ->
  (ctx_done s = true \/ exists m, m ∈ modules /\ Start m false <> None) ->
  forall i, ~ blocked_in_Start modules s i.
Proof.
  intros HI Hq Hret Hsig i (g & m & Hg & Hpc & Hm & Hblocked).
  destruct (ctx_done s) eqn:Hc.
  { eapply Hret; [|done]. by eapply list_elem_of_lookup_2. }
  destruct Hsig as [|(mk & [k Hk]%list_elem_of_lookup_1 & Hmk)]; [done|].
  pose proof (quiescent_launched _ _ HI Hq) as Hlen.
  destruct (lookup_lt_is_Some_2 (gs s) k) as [gk Hgk].
  { rewrite Hlen. by eapply lookup_lt_Some. }
  destruct (decide (pc gk = GStart)) as [Hs|Hs].
  { destruct (Start mk false) as [r|] eqn:Hstart; [|done].
    specialize (Hq (LStart k)). unfold step, step_module in Hq.
    rewrite (inv_panic _ _ HI), Hgk in Hq. simpl in Hq. rewrite Hs, Hk in Hq.
    simpl in Hq. rewrite Hc, Hstart in Hq. by specialize (Hq ltac:(done)). }
  destruct (decide (pc gk = GEnd)) as [He|He].
  { pose proof (inv_end _ _ HI _ _ Hgk He) as Hon.
    apply (inv_once _ _ HI) in Hon as [? _]. congruence. }
  destruct (module_step_enabled modules s k gk HI Hgk Hs He) as (l & s' & Hl & Hs').
  rewrite Hq in Hs'; done.
Qed.

(** ** The claims *)

Lemma RunModules_inv ctx modules sched r :
  RunModules ctx modules sched = Some r ->
  exists s, run modules sched (init ctx) = Some s /\ main s = MReturned /\ result s = r.
Proof.
  unfold RunModules. intros H.
  destruct (run modules sched (init ctx)) as [s|] eqn:Hrun; simplify_eq/=.
  exists s. destruct (main s); by simplify_eq.
Qed.

Lemma RunModules_intro ctx modules sched s :
  run modules sched (init ctx) = Some s -> main s = MReturned ->
  RunModules ctx modules sched = Some (result s).
Proof. unfold RunModules. intros -> Hm. simpl. by rewrite Hm. Qed.

Lemma omap_total {A B} (f : A -> option B) (l : list A) :
  (forall a, a ∈ l -> is_Some (f a)) -> Some <$> omap f l = f <$> l.
Proof.
  induction l as [|a l IH]; intros H; [done|]. csimpl.
  destruct (H a) as [b Hb]; [left|]. rewrite Hb. csimpl. rewrite IH; [done|].
  intros a' Ha'. apply H. by right.
Qed.

(** After the join, a goroutine's error has arrived exactly if it is not
    nil. *)
Lemma sent_after_join g : before_done g = false -> sent g = true <-> is_Some (err g).
Proof.
  unfold before_done, sent. destruct (pc g), (err g); try done; split; try done.
  all: by intros [? ?].
Qed.

Lemma arrivals_after_join modules ctx sched s :
  run modules sched (init ctx) = Some s -> main s = MReturned ->
  forall i, i ∈ arrivals sched <-> exists e, err_at (gs s) i = Some e.
Proof.
  intros Hrun Hm i. destruct (run_invariants _ _ _ _ Hrun) as [HI HT].
  destruct (returned_joined _ _ HI Hm) as [_ Hjoin].
  rewrite (tr_sent _ _ HT). unfold err_at. split.
  - intros (g & Hg & Hs). apply sent_after_join in Hs as [e He]; [|by eapply Hjoin].
    exists e. by rewrite Hg.
  - intros (e & He). destruct (gs s !! i) as [g|] eqn:Hg; [|done]. simpl in He.
    exists g. split; [done|]. apply sent_after_join; [by eapply Hjoin|by eexists].
Qed.

(** What a goroutine holds in [err] after the join is what its module's
    [Start] returned. *)
Lemma returned_from_Start modules s :
  Inv modules s -> main s = MReturned ->
  forall i g, gs s !! i = Some g ->
    exists m c, modules !! i = Some m /\ Start m c = Some (err g).
Proof.
  intros HI Hm i g Hg. destruct (returned_joined _ _ HI Hm) as [_ Hjoin].
  pose proof (inv_err _ _ HI _ _ Hg) as He.
  specialize (Hjoin _ _ Hg). unfold before_done in Hjoin.
  destruct (pc g); try done; destruct He as (m & c & ? & ? & _); eauto.
Qed.

(** C3: complete, arrival-ordered aggregation.  When [RunModules] returns
    [r], every module's [Start] has returned (the goroutine's [err] holds
    what it returned), the errors that arrived on the channel are exactly
    the non-nil ones, each once, and [r] is their [Append] in arrival
    order: its flat list of errors is the concatenation in arrival order
    and its message joins the arrived messages with "; ". *)
Theorem RunModules_aggregates_in_arrival_order modules ctx sched r :
  RunModules ctx modules sched = Some r ->
  exists s, run modules sched (init ctx) = Some s /\
    length (gs s) = length modules /\
    (forall i g, gs s !! i = Some g ->
       exists m c, modules !! i = Some m /\ Start m c = Some (err g)) /\
    NoDup (arrivals sched) /\
    (forall i, i ∈ arrivals sched <-> exists e, err_at (gs s) i = Some e) /\
    Some <$> arrived sched s = err_at (gs s) <$> arrivals sched /\
    r = foldl Append None (Some <$> arrived sched s) /\
    Errors_opt r = mjoin (Errors <$> arrived sched s) /\
    (Forall wf_error (arrived sched s) ->
     message r = String.concat "; " (Error <$> arrived sched s)).
Proof.
  intros (s & Hrun & Hm & <-)%RunModules_inv. exists s.
  destruct (run_invariants _ _ _ _ Hrun) as [HI HT].
  destruct (returned_joined _ _ HI Hm) as [Hlen _].
  pose proof (arrivals_after_join _ _ _ _ Hrun Hm) as Harr.
  split; [done|]. split; [done|]. split; [by apply returned_from_Start|].
  split; [apply (tr_nodup _ _ HT)|]. split; [done|]. split.
  { apply omap_total. intros i Hi. apply Harr in Hi as [e He]. by exists e. }
  rewrite (tr_result _ _ HT). split; [done|]. split.
  - apply (Errors_foldl _ None).
  - apply message_foldl.
Qed.

(** C4: if no module's [Start] ever returns an error, [RunModules] can only
    return nil; it does return nil at the end of every complete execution
    in which no [Start] call is left blocked (every execution can be
    completed), and in particular for the empty module list. *)
Theorem RunModules_all_nil modules ctx :
  (forall m c r, m ∈ modules -> Start m c = Some r -> r = None) ->
  (forall sched r, RunModules ctx modules sched = Some r -> r = None) /\
  (forall sched s, run modules sched (init ctx) = Some s -> quiescent modules s ->
     (forall i, ~ blocked_in_Start modules s i) ->
     RunModules ctx modules sched = Some None) /\
  (exists sched s, run modules sched (init ctx) = Some s /\ quiescent modules s) /\
  RunModules ctx [] (tests.launch 0 ++ tests.finish) = Some None.
Proof.
  intros Hnil.
  assert (forall sched r, RunModules ctx modules sched = Some r -> r = None) as H1.
  { intros sched r (s & Hrun & Hm & <-)%RunModules_inv.
    destruct (run_invariants _ _ _ _ Hrun) as [HI HT].
    assert (arrivals sched = []) as Hnone.
    { destruct (arrivals sched) as [|i A] eqn:HA; [done|]. exfalso.
      destruct (arrivals_after_join _ _ _ _ Hrun Hm i) as [Hi _]. rewrite HA in Hi.
      destruct Hi as [e He]; [left|].
      unfold err_at in He. destruct (gs s !! i) as [g|] eqn:Hg; [|done]. simpl in He.
      destruct (returned_from_Start _ _ HI Hm _ _ Hg) as (m & c & Hmi & Hs).
      apply Hnil in Hs; [congruence|]. by eapply list_elem_of_lookup_2. }
    rewrite (tr_result _ _ HT). unfold arrived. by rewrite Hnone. }
  split; [done|]. split; [|split].
  - intros sched s Hrun Hq Hb. destruct (run_invariants _ _ _ _ Hrun) as [HI _].
    pose proof (quiescent_returned _ _ HI Hq Hb) as Hm.
    pose proof (RunModules_intro _ _ _ _ Hrun Hm) as Hr.
    by rewrite Hr, (H1 _ _ Hr).
  - destruct (run_to_quiescent modules (init ctx)) as (sched & s & ? & ? & _). eauto.
  - by destruct ctx as [|[]].
Qed.

Lemma NoDup_only (l : list nat) k :
  NoDup l -> (forall i, i ∈ l <-> i = k) -> l = [k].
Proof.
  intros Hnd H. destruct l as [|a l].
  - destruct (H k) as [_ Hk]. by apply elem_of_nil in Hk.
  - assert (a = k) as -> by (apply H; left).
    destruct l as [|b l]; [done|]. exfalso.
    assert (b = k) as -> by (apply H; right; left).
    apply NoDup_cons in Hnd as [Hnd _]. apply Hnd. left.
Qed.

(** C5: one module returns the error [e], all the others block until the
    context is cancelled and then return nil.  Then [RunModules] can only
    return [e] itself (so the message is that of [e]); when it returns,
    every other module's [Start] has returned, which it can only do after
    the cancellation; every complete execution returns, and there is one. *)
Theorem RunModules_single_error modules ctx k mk e :
  modules !! k = Some mk ->
  (forall c, Start mk c = Some (Some e)) ->
  (forall j m, j <> k -> modules !! j = Some m ->
     Start m false = None /\ Start m true = Some None) ->
  (forall sched r, RunModules ctx modules sched = Some r ->
     r = Some e /\ message r = Error e /\ arrivals sched = [k] /\
     exists s, run modules sched (init ctx) = Some s /\
       forall j, j < length modules -> j <> k ->
         ctx_done s = true /\
         exists g, gs s !! j = Some g /\ before_done g = false /\ err g = None) /\
  (forall sched s, run modules sched (init ctx) = Some s -> quiescent modules s ->
     RunModules ctx modules sched = Some (Some e)) /\
  (exists sched, RunModules ctx modules sched = Some (Some e)).
Proof.
  intros Hk Hmk Hothers.
  assert (forall sched s, run modules sched (init ctx) = Some s -> main s = MReturned ->
            arrivals sched = [k] /\ arrived sched s = [e]) as Harrived.
  { intros sched s Hrun Hm. destruct (run_invariants _ _ _ _ Hrun) as [HI HT].
    destruct (returned_joined _ _ HI Hm) as [Hlen Hjoin].
    pose proof (arrivals_after_join _ _ _ _ Hrun Hm) as Harr.
    assert (forall i g, gs s !! i = Some g ->
              err g = if decide (i = k) then Some e else None) as Herr.
    { intros i g Hg. pose proof (inv_err _ _ HI _ _ Hg) as He.
      specialize (Hjoin _ _ Hg). unfold before_done in Hjoin.
      destruct (pc g); try done; destruct He as (m & c & Hm' & Hs & _);
        case_decide; simplify_eq;
        try (rewrite Hmk in Hs; congruence);
        destruct (Hothers _ _ ltac:(done) Hm') as [Hf Ht]; destruct c; congruence. }
    assert (arrivals sched = [k]) as HA.
    { apply NoDup_only; [apply (tr_nodup _ _ HT)|]. intros i. rewrite Harr.
      unfold err_at. split.
      - intros (e' & He'). destruct (gs s !! i) as [g|] eqn:Hg; [|done]. simpl in He'.
        rewrite (Herr _ _ Hg) in He'. by case_decide.
      - intros ->. destruct (lookup_lt_is_Some_2 (gs s) k) as [g Hg].
        { rewrite Hlen. by eapply lookup_lt_Some. }
        exists e. rewrite Hg. simpl. rewrite (Herr _ _ Hg). by rewrite decide_True. }
    split; [done|]. unfold arrived. rewrite HA. csimpl.
    destruct (lookup_lt_is_Some_2 (gs s) k) as [g Hg].
    { rewrite Hlen. by eapply lookup_lt_Some. }
    unfold err_at. rewrite Hg. simpl. rewrite (Herr _ _ Hg). by rewrite decide_True. }
  assert (forall sched s, run modules sched (init ctx) = Some s -> main s = MReturned ->
            result s = Some e) as Hresult.
  { intros sched s Hrun Hm. destruct (run_invariants _ _ _ _ Hrun) as [_ HT].
    rewrite (tr_result _ _ HT). by destruct (Harrived _ _ Hrun Hm) as [_ ->]. }
  assert (forall sched s, run modules sched (init ctx) = Some s -> quiescent modules s ->
            RunModules ctx modules sched = Some (Some e)) as Hcomplete.
  { intros sched s Hrun Hq. destruct (run_invariants _ _ _ _ Hrun) as [HI _].
    assert (main s = MReturned) as Hm.
    { apply (quiescent_returned _ _ HI Hq), (quiescent_unblocked _ _ HI Hq).
      - intros m [j Hj]%list_elem_of_lookup_1. destruct (decide (j = k)) as [->|Hne].
        + simplify_eq. by rewrite Hmk.
        + destruct (Hothers _ _ Hne Hj) as [_ ->]. done.
      - right. exists mk. split; [by eapply list_elem_of_lookup_2|]. by rewrite Hmk. }
    rewrite (RunModules_intro _ _ _ _ Hrun Hm). by rewrite (Hresult _ _ Hrun Hm). }
  split; [|split; [done|]].
  - intros sched r (s & Hrun & Hm & <-)%RunModules_inv.
    destruct (run_invariants _ _ _ _ Hrun) as [HI HT].
    destruct (returned_joined _ _ HI Hm) as [Hlen Hjoin].
    rewrite (Hresult _ _ Hrun Hm). split; [done|]. split; [done|].
    split; [by destruct (Harrived _ _ Hrun Hm)|].
    exists s. split; [done|]. intros j Hj Hne.
    destruct (lookup_lt_is_Some_2 (gs s) j) as [g Hg]; [lia|].
    destruct (lookup_lt_is_Some_2 modules j) as [m Hmj]; [lia|].
    pose proof (inv_err _ _ HI _ _ Hg) as He.
    pose proof (Hjoin _ _ Hg) as Hb. unfold before_done in Hb.
    destruct (Hothers _ _ Hne Hmj) as [Hf Ht].
    destruct (pc g) eqn:Hpc; try done; destruct He as (m' & c & Hm' & Hs & Hc);
      simplify_eq; (destruct c; [|congruence]);
      (split; [by apply Hc|]); exists g; unfold before_done; rewrite Hpc;
      (split; [done|]); (split; [done|]); congruence.
  - destruct (run_to_quiescent modules (init ctx)) as (sched & s & Hrun & Hq & _).
    exists sched. by eapply Hcomplete.
Qed.

(** C1 (the code departs from the claim): with the single module
    [noopModule(nil)] there is an execution in which [RunModules] has
    returned nil while the module's goroutine has passed [wg.Done()] but has
    not yet executed [stopCloseOnce.Do]: it is still to call [cancel()]. *)
Theorem RunModules_returns_before_goroutine_ends :
  let modules := [noopModule 0 None] in
  let s := {| main := MReturned; result := None; outer := OEnd;
              gs := [ {| pc := GOnce; err := None |} ]; wg := 0;
              closed := true; once := false; ctx_done := false;
              parent := Background; panicked := false |} in
  RunModules Background modules tests.early_return_schedule = Some None /\
  run modules tests.early_return_schedule (init Background) = Some s /\
  step modules s (LOnceFire 0)
  = Some (set_gs [ {| pc := GEnd; err := None |} ] (set_ctx_done true (set_once true s))).
Proof. repeat split; vm_compute; reflexivity. Qed.

(** C7 (the code departs from the claim): the goroutine signals completion
    with [wg.Done()] before it triggers the cancellation.  With the single
    module [noopModule(nil)], after [Start] has returned neither branch of
    [stopCloseOnce.Do] can execute before [wg.Done()], and after [wg.Done()]
    the WaitGroup counter is already 0 while the Once has not run and the
    context is not cancelled. *)
Theorem wg_Done_precedes_cancel :
  let modules := [noopModule 0 None] in
  let returned := tests.launch 1 ++ [LStart 0; LNoErr 0] in
  run modules (returned ++ [LOnceFire 0]) (init Background) = None /\
  run modules (returned ++ [LOnceSkip 0]) (init Background) = None /\
  run modules (returned ++ [LDone 0]) (init Background)
  = Some {| main := MRange; result := None; outer := OWait;
            gs := [ {| pc := GOnce; err := None |} ]; wg := 0;
            closed := false; once := false; ctx_done := false;
            parent := Background; panicked := false |}.
Proof. repeat split; vm_compute; reflexivity. Qed.

(** C2, as stated, fails for the empty module list: the execution below is
    complete ([RunModules] has returned and no step at all is left), and
    [cancel()] was never called: the derived context is not cancelled. *)
Lemma cancel_never_fires_without_modules :
  let s := {| main := MReturned; result := None; outer := OEnd; gs := [];
              wg := 0; closed := true; once := false; ctx_done := false;
              parent := Background; panicked := false |} in
  run [] (tests.launch 0 ++ tests.finish) (init Background) = Some s /\
  (forall l, step [] s l = None) /\
  fires (tests.launch 0 ++ tests.finish) = 0.
Proof.
  split; [vm_compute; reflexivity|]. split; [|vm_compute; reflexivity].
  intros []; reflexivity.
Qed.

(** C2 (amended): single fire.  In every execution [cancel()] is called at
    most once and nothing panics; it has been called (exactly once) as soon
    as one module goroutine has finished, and so in every complete
    execution with at least one module; once the context is cancelled it
    stays cancelled.  With an empty module list [cancel()] is never
    called. *)
Theorem cancel_fires_at_most_once modules ctx sched s :
  run modules sched (init ctx) = Some s ->
  fires sched <= 1 /\
  panicked s = false /\
  (fires sched = 1 <-> once s = true) /\
  (fires sched = 1 -> ctx_done s = true) /\
  (forall i g, gs s !! i = Some g -> pc g = GEnd -> fires sched = 1) /\
  (modules <> [] -> quiescent modules s -> main s = MReturned -> fires sched = 1) /\
  (forall sched' s', run modules sched' s = Some s' ->
     ctx_done s = true -> ctx_done s' = true) /\
  (modules = [] -> fires sched = 0).
Proof.
  intros Hrun. destruct (run_invariants _ _ _ _ Hrun) as [HI HT].
  pose proof (tr_fires _ _ HT) as Hf.
  assert (forall i g, gs s !! i = Some g -> pc g = GEnd -> fires sched = 1) as Hend.
  { intros i g Hg Hpc. rewrite Hf. by rewrite (inv_end _ _ HI _ _ Hg Hpc). }
  split; [destruct (once s); lia|]. split; [apply (inv_panic _ _ HI)|].
  split; [destruct (once s); split; (done || lia)|]. split.
  { intros H1. apply (inv_once _ _ HI). destruct (once s); [done|lia]. }
  split; [done|]. split; [|split; [intros sched' s' Hrun'; by eapply run_ctx_done|]].
  2:{ intros ->. rewrite Hf. destruct (once s) eqn:Hon; [|done]. exfalso.
      destruct (inv_once _ _ HI Hon) as (_ & i & g & Hg & _).
      apply lookup_lt_Some in Hg. pose proof (inv_gs _ _ HI) as Hgs.
      pose proof (inv_k _ _ HI) as Hk. simpl in Hgs, Hk. lia. }
  intros Hne Hq Hm. destruct (returned_joined _ _ HI Hm) as [Hlen Hjoin].
  destruct (lookup_lt_is_Some_2 (gs s) 0) as [g Hg].
  { rewrite Hlen. destruct modules; [done|simpl; lia]. }
  destruct (decide (pc g = GEnd)) as [He|He]; [by eapply Hend|]. exfalso.
  specialize (Hjoin _ _ Hg). unfold before_done in Hjoin.
  destruct (module_step_enabled modules s 0 g HI Hg) as (l & s' & Hl & Hs'); try done.
  - intros Hpc. by rewrite Hpc in Hjoin.
  - rewrite Hq in Hs'; done.
Qed.

(** C6: cancellation on success too.  A goroutine at [stopCloseOnce.Do]
    takes its step whatever its [err] is, nil included, and the context is
    cancelled afterwards; as soon as any goroutine has finished the
    context is cancelled; and a sibling blocked in a [Start] that returns
    on cancellation can then return. *)
Theorem cancel_regardless_of_error modules ctx sched s i g :
  run modules sched (init ctx) = Some s ->
  gs s !! i = Some g ->
  (pc g = GOnce ->
   exists l s', (l = LOnceFire i \/ l = LOnceSkip i) /\
     step modules s l = Some s' /\ ctx_done s' = true /\ once s' = true /\
     gs s' !! i = Some {| pc := GEnd; err := err g |}) /\
  (pc g = GEnd -> ctx_done s = true) /\
  (ctx_done s = true ->
   forall j gj mj r, gs s !! j = Some gj -> pc gj = GStart ->
     modules !! j = Some mj -> Start mj true = Some r ->
     exists s', step modules s (LStart j) = Some s' /\
                gs s' !! j = Some {| pc := GReport; err := r |}).
Proof.
  intros Hrun Hg. destruct (run_invariants _ _ _ _ Hrun) as [HI _].
  pose proof (inv_panic _ _ HI) as Hp.
  pose proof (lookup_lt_Some _ _ _ Hg) as Hlt.
  split; [|split].
  - intros Hpc. destruct (once s) eqn:Hon.
    + exists (LOnceSkip i). eexists. split; [by right|].
      unfold step, step_module. rewrite Hp, Hg. simpl. rewrite Hpc, Hon.
      split; [done|]. simpl. split; [by apply (inv_once _ _ HI)|]. split; [done|].
      by apply list_lookup_insert_eq.
    + exists (LOnceFire i). eexists. split; [by left|].
      unfold step, step_module. rewrite Hp, Hg. simpl. rewrite Hpc, Hon.
      split; [done|]. simpl. split; [done|]. split; [done|].
      by apply list_lookup_insert_eq.
  - intros Hpc. apply (inv_once _ _ HI), (inv_end _ _ HI _ _ Hg Hpc).
  - intros Hc j gj mj r Hgj Hpc Hmj Hr. eexists.
    unfold step, step_module. rewrite Hp, Hgj. simpl. rewrite Hpc, Hmj. simpl.
    rewrite Hc, Hr. simpl. split; [done|]. simpl.
    apply list_lookup_insert_eq. by eapply lookup_lt_Some.
Qed.

(** C8 (amended): no deadlock on the error path.  Every execution is bounded; a
    goroutine at [errCh <- err] always finds the range loop receiving (the
    channel is open and the send does not panic); and a complete execution
    in which no [Start] call is left blocked has returned, which is the
    case whenever every [Start] returns once the context is cancelled and
    the context is cancelled or some [Start] returns on its own. *)
Theorem RunModules_no_deadlock modules ctx sched s :
  run modules sched (init ctx) = Some s ->
  length sched <= 5 * length modules + 8 /\
  (forall i g e, gs s !! i = Some g -> pc g = GReport -> err g = Some e ->
     exists s', step modules s (LSend i) = Some s' /\ panicked s' = false) /\
  (main s <> MReturned ->
     (exists l s', l <> LParentCancel /\ step modules s l = Some s') \/
     (exists i, blocked_in_Start modules s i)) /\
  (quiescent modules s -> (forall i, ~ blocked_in_Start modules s i) ->
     exists r, RunModules ctx modules sched = Some r) /\
  (quiescent modules s ->
     (forall m, m ∈ modules -> Start m true <> None) ->
     (ctx_done s = true \/ exists m, m ∈ modules /\ Start m false <> None) ->
     exists r, RunModules ctx modules sched = Some r).
Proof.
  intros Hrun. destruct (run_invariants _ _ _ _ Hrun) as [HI _].
  split.
  { pose proof (run_bounded _ _ _ _ Hrun) as Hb. unfold measure in Hb at 2.
    simpl in Hb. destruct ctx as [|[]]; simpl in Hb; lia. }
  split; [intros i g e Hg Hpc He; by eapply send_ready|]. split; [by apply progress|].
  assert (quiescent modules s -> (forall i, ~ blocked_in_Start modules s i) ->
          exists r, RunModules ctx modules sched = Some r) as Hret.
  { intros Hq Hb. exists (result s). apply RunModules_intro; [done|].
    by apply (quiescent_returned modules). }
  split; [done|]. intros Hq H1 H2. apply Hret; [done|].
  by apply (quiescent_unblocked modules).
Qed.

(** C9: the registration pass.  [BindModuleFlags] calls [BindFlags] once per
    element of the slice, in slice order, each time with the flag set of the
    command, threading the effects of the calls, and calls no [Start]; in
    TestBindModuleFlags the instance that was registered is the one the
    runner starts, so the parsed value is found in its field. *)
Theorem BindModuleFlags_calls modules c tr w :
  (BindModuleFlags modules c (tr, w)).1
    = tr ++ ((fun m => EvBindFlags (addr m) (Flags c)) <$> modules) /\
  (BindModuleFlags modules c (tr, w)).2
    = foldl (fun w m => BindFlags m (Flags c) w) w modules /\
  (forall a, EvStart a ∈ (BindModuleFlags modules c (tr, w)).1 -> EvStart a ∈ tr) /\
  (forall sched,
     tests.TestBindModuleFlags sched
     = Some (Some "test-flag-value", RunModules Background tests.flagModules sched)).
Proof.
  assert (forall tw, BindModuleFlags modules c tw
            = (tw.1 ++ ((fun m => EvBindFlags (addr m) (Flags c)) <$> modules),
               foldl (fun w m => BindFlags m (Flags c) w) tw.2 modules)) as H.
  { unfold BindModuleFlags. induction modules as [|m modules IH]; intros [tr' w'].
    - simpl. by rewrite app_nil_r.
    - simpl. rewrite IH. simpl. by rewrite <-app_assoc. }
  rewrite H. simpl. split; [done|]. split; [done|]. split.
  - intros a [Ha|Ha]%elem_of_app; [done|].
    apply list_elem_of_fmap in Ha as (m & Hm & _). done.
  - intros sched. unfold tests.TestBindModuleFlags, NewModuleRunner.
    generalize (RunModules Background tests.flagModules). intros R.
    vm_compute. reflexivity.
Qed.

(** C10: the closure returned by [NewModuleRunner] ignores the command and
    the arguments and is [RunModules] on the captured context and
    modules. *)
Theorem NewModuleRunner_is_RunModules ctx modules c args :
  NewModuleRunner ctx modules c args = RunModules ctx modules /\
  forall c' args', NewModuleRunner ctx modules c' args' = NewModuleRunner ctx modules c args.
Proof. done. Qed.

(** ** The scenarios of TestNewModuleRunner *)

Example TestNewModuleRunner_NoErrors :
  message <$> NewModuleRunner Background tests.noErrors tests.testCmd []
                tests.noErrors_schedule = Some "".
Proof. vm_compute. reflexivity. Qed.

Example TestNewModuleRunner_SingleError :
  message <$> NewModuleRunner Background tests.singleError tests.testCmd []
                tests.singleError_schedule = Some "test-error-1".
Proof. vm_compute. reflexivity. Qed.

Example TestNewModuleRunner_MultipleErrors :
  message <$> NewModuleRunner Background tests.multipleErrors tests.testCmd []
                tests.multipleErrors_schedule = Some "test-error-1; test-error-2".
Proof. vm_compute. reflexivity. Qed.

(** Under [context.Background()] nothing cancels the caller's context. *)
Lemma run_Background modules sched s :
  run modules sched (init Background) = Some s -> parent s = Background.
Proof.
  revert s. induction sched as [|l sched IH] using rev_ind; intros s H.
  - by simplify_eq/=.
  - apply run_snoc in H as (s1 & H1 & Hstep). specialize (IH _ H1).
    destruct s1 as [m r o g w c on cd p pn]. simpl in IH. subst p.
    step_cases Hstep; done.
Qed.

(** MultipleErrors: the second module only returns after the cancellation,
    which the first module's goroutine triggers after its error has
    arrived, so the arrival order is fixed. *)
Lemma multipleErrors_arrival_order sched s :
  run tests.multipleErrors sched (init Background) = Some s ->
  arrivals sched = [] \/ arrivals sched = [0] \/ arrivals sched = [0; 1].
Proof.
  revert s. induction sched as [|l sched IH] using rev_ind; intros s H; [by left|].
  pose proof (run_invariants _ _ _ _ H) as [_ HT']. pose proof (tr_nodup _ _ HT') as Hnd.
  apply run_snoc in H as (s1 & H1 & Hstep). specialize (IH _ H1).
  destruct (run_invariants _ _ _ _ H1) as [HI HT].
  rewrite arrivals_snoc in *. destruct l; rewrite ?app_nil_r; try done.
  assert (exists g e, gs s1 !! i = Some g /\ pc g = GReport /\ err g = Some e)
    as (g & e & Hg & Hpc & He).
  { unfold step in Hstep. rewrite (inv_panic _ _ HI) in Hstep.
    destruct (gs s1 !! i) as [g|]; [|done]. simpl in Hstep.
    destruct (pc g) eqn:?, (err g) eqn:?; try done. by exists g, e. }
  assert (i < 2) as Hi.
  { pose proof (lookup_lt_Some _ _ _ Hg). pose proof (inv_gs _ _ HI).
    pose proof (inv_k _ _ HI). simpl in *. lia. }
  apply NoDup_app in Hnd as (_ & Hnotin & _).
  destruct i as [|[|i]]; [| |lia].
  - destruct IH as [Hnil|[H0|H01]].
    + rewrite Hnil. by right; left.
    + exfalso. apply (Hnotin 0); [|by left]. rewrite H0. by left.
    + exfalso. apply (Hnotin 0); [|by left]. rewrite H01. by left.
  - destruct IH as [Hnil|[H0|H01]]; [|rewrite H0; by right; right|].
    + exfalso. pose proof (inv_err _ _ HI _ _ Hg) as Herr. rewrite Hpc in Herr.
      destruct Herr as (m & c & Hm & Hs & Hc). simpl in Hm. injection Hm as <-.
      destruct c; [|done]. specialize (Hc eq_refl).
      destruct (inv_ctx _ _ HI Hc) as [Hon|Hp].
      2:{ by rewrite (run_Background _ _ _ H1) in Hp. }
      destruct (inv_once _ _ HI Hon) as (_ & i0 & g0 & Hg0 & Hend).
      assert (i0 = 0) as ->.
      { pose proof (lookup_lt_Some _ _ _ Hg0). pose proof (inv_gs _ _ HI).
        pose proof (inv_k _ _ HI). simpl in *.
        destruct i0 as [|[|i0]]; [done| |lia]. simplify_eq. congruence. }
      pose proof (inv_err _ _ HI _ _ Hg0) as Herr0. rewrite Hend in Herr0.
      destruct Herr0 as (m0 & c0 & Hm0 & Hs0 & _). simpl in Hm0. injection Hm0 as <-.
      simpl in Hs0. assert (0 ∈ arrivals sched) as Hin.
      { apply (tr_sent _ _ HT). exists g0. split; [done|]. unfold sent.
        rewrite Hend. by destruct (err g0). }
      rewrite Hnil in Hin. by apply elem_of_nil in Hin.
    + exfalso. apply (Hnotin 1); [|by left]. rewrite H01. by right; left.
Qed.

(** The expectation of the MultipleErrors case holds however the goroutines
    are scheduled: whenever [RunModules] returns, it returns the expected
    message, and it returns at the end of every complete execution. *)
Lemma TestNewModuleRunner_MultipleErrors_any_schedule sched r :
  RunModules Background tests.multipleErrors sched = Some r ->
  message r = "test-error-1; test-error-2".
Proof.
  intros (s & Hrun & Hm & <-)%RunModules_inv.
  destruct (run_invariants _ _ _ _ Hrun) as [HI HT].
  destruct (returned_joined _ _ HI Hm) as [Hlen Hjoin].
  pose proof (arrivals_after_join _ _ _ _ Hrun Hm) as Harr.
  destruct (lookup_lt_is_Some_2 (gs s) 0) as [g0 Hg0]; [rewrite Hlen; simpl; lia|].
  destruct (lookup_lt_is_Some_2 (gs s) 1) as [g1 Hg1]; [rewrite Hlen; simpl; lia|].
  assert (err g0 = Some (errorString "test-error-1")) as He0.
  { destruct (returned_from_Start _ _ HI Hm _ _ Hg0) as (m & c & Hmi & Hs).
    simpl in Hmi. injection Hmi as <-. simpl in Hs. congruence. }
  assert (err g1 = Some (errorString "test-error-2")) as He1.
  { destruct (returned_from_Start _ _ HI Hm _ _ Hg1) as (m & c & Hmi & Hs).
    simpl in Hmi. injection Hmi as <-. simpl in Hs. destruct c; congruence. }
  assert (arrivals sched = [0; 1]) as HA.
  { assert (1 ∈ arrivals sched) as Hin.
    { apply Harr. unfold err_at. rewrite Hg1. simpl. eauto. }
    destruct (multipleErrors_arrival_order _ _ Hrun) as [HA|[HA|HA]]; [..|done];
      rewrite HA in Hin.
    - by apply elem_of_nil in Hin.
    - apply list_elem_of_singleton in Hin. done. }
  rewrite (tr_result _ _ HT). unfold arrived, err_at. rewrite HA. csimpl.
  rewrite Hg0, Hg1. simpl. by rewrite He0, He1.
Qed.

Lemma TestNewModuleRunner_MultipleErrors_complete sched s :
  run tests.multipleErrors sched (init Background) = Some s ->
  quiescent tests.multipleErrors s ->
  message <$> RunModules Background tests.multipleErrors sched
  = Some "test-error-1; test-error-2".
Proof.
  intros Hrun Hq. destruct (run_invariants _ _ _ _ Hrun) as [HI _].
  assert (main s = MReturned) as Hm.
  { apply (quiescent_returned _ _ HI Hq), (quiescent_unblocked _ _ HI Hq).
    - intros m Hm. unfold tests.multipleErrors in Hm.
      repeat (apply elem_of_cons in Hm as [->|Hm]); try done.
      by apply elem_of_nil in Hm.
    - right. eexists. split; [by left|done]. }
  pose proof (RunModules_intro _ _ _ _ Hrun Hm) as Hr. rewrite Hr. simpl.
  by rewrite (TestNewModuleRunner_MultipleErrors_any_schedule _ _ Hr).
Qed.

(** ** The theorems at the scenarios of the tests *)

Lemma cancel_fires_at_most_once_witness :
  run tests.multipleErrors tests.multipleErrors_schedule (init Background)
  = Some tests.multipleErrors_final /\
  fires tests.multipleErrors_schedule = 1.
Proof.
  assert (run tests.multipleErrors tests.multipleErrors_schedule (init Background)
          = Some tests.multipleErrors_final) as Hrun by (vm_compute; reflexivity).
  split; [exact Hrun|].
  destruct (cancel_fires_at_most_once _ _ _ _ Hrun) as (_ & _ & _ & _ & Hend & _).
  apply (Hend 0 {| pc := GEnd; err := Some (errorString "test-error-1") |});
    reflexivity.
Defined.

Lemma RunModules_aggregates_in_arrival_order_witness :
  RunModules Background tests.multipleErrors tests.multipleErrors_schedule
  = Some (Some (multiError ["test-error-1"; "test-error-2"])) /\
  exists s,
    run tests.multipleErrors tests.multipleErrors_schedule (init Background) = Some s /\
    arrived tests.multipleErrors_schedule s
    = [errorString "test-error-1"; errorString "test-error-2"] /\
    message (Some (multiError ["test-error-1"; "test-error-2"]))
    = String.concat "; " (Error <$> arrived tests.multipleErrors_schedule s).
Proof.
  assert (RunModules Background tests.multipleErrors tests.multipleErrors_schedule
          = Some (Some (multiError ["test-error-1"; "test-error-2"]))) as Hr
    by (vm_compute; reflexivity).
  split; [exact Hr|].
  destruct (RunModules_aggregates_in_arrival_order _ _ _ _ Hr)
    as (s & Hrun & _ & _ & _ & _ & _ & _ & _ & Hmsg).
  exists s. split; [exact Hrun|].
  vm_compute in Hrun. injection Hrun as <-.
  split; [vm_compute; reflexivity|]. apply Hmsg.
  vm_compute. repeat constructor; discriminate.
Defined.

Lemma RunModules_all_nil_witness :
  (forall m c r, m ∈ tests.noErrors -> Start m c = Some r -> r = None) /\
  (forall sched r, RunModules Background tests.noErrors sched = Some r -> r = None) /\
  RunModules Background tests.noErrors tests.noErrors_schedule = Some None.
Proof.
  assert (forall m c r, m ∈ tests.noErrors -> Start m c = Some r -> r = None) as H.
  { intros m c r Hm Hs. unfold tests.noErrors in Hm.
    repeat (apply elem_of_cons in Hm as [->|Hm]);
      try (destruct c; simpl in Hs; congruence).
    by apply elem_of_nil in Hm. }
  split; [exact H|]. split; [|vm_compute; reflexivity].
  apply (RunModules_all_nil tests.noErrors Background H).
Defined.

Lemma RunModules_single_error_witness :
  tests.singleError !! 0 = Some (noopModule 0 (Some (errorString "test-error-1"))) /\
  (forall sched r, RunModules Background tests.singleError sched = Some r ->
     message r = "test-error-1") /\
  exists sched, RunModules Background tests.singleError sched
                = Some (Some (errorString "test-error-1")).
Proof.
  split; [reflexivity|].
  destruct (RunModules_single_error tests.singleError Background 0
              (noopModule 0 (Some (errorString "test-error-1")))
              (errorString "test-error-1")) as (H1 & _ & H3).
  - reflexivity.
  - intros c. reflexivity.
  - intros [|[|j]] m Hne Hm; [done| |done]. simpl in Hm. injection Hm as <-. by split.
  - split; [|exact H3]. intros sched r Hr. by destruct (H1 _ _ Hr) as (_ & -> & _).
Defined.

Lemma cancel_regardless_of_error_witness :
  run tests.noErrors (tests.launch 4 ++ [LStart 0; LNoErr 0; LDone 0]) (init Background)
  = Some tests.noErrors_first_done /\
  gs tests.noErrors_first_done !! 0 = Some {| pc := GOnce; err := None |} /\
  exists l s',
    (l = LOnceFire 0 \/ l = LOnceSkip 0) /\
    step tests.noErrors tests.noErrors_first_done l = Some s' /\
    ctx_done s' = true /\ once s' = true /\
    gs s' !! 0 = Some {| pc := GEnd; err := None |}.
Proof.
  assert (run tests.noErrors (tests.launch 4 ++ [LStart 0; LNoErr 0; LDone 0])
            (init Background) = Some tests.noErrors_first_done) as Hrun
    by (vm_compute; reflexivity).
  split; [exact Hrun|]. split; [reflexivity|].
  apply (cancel_regardless_of_error _ _ _ _ 0 {| pc := GOnce; err := None |} Hrun);
    reflexivity.
Defined.

Lemma RunModules_no_deadlock_witness :
  run tests.multipleErrors (tests.launch 2 ++ [LStart 0]) (init Background)
  = Some tests.multipleErrors_first_returned /\
  exists s', step tests.multipleErrors tests.multipleErrors_first_returned (LSend 0) = Some s' /\
             panicked s' = false.
Proof.
  assert (run tests.multipleErrors (tests.launch 2 ++ [LStart 0]) (init Background)
          = Some tests.multipleErrors_first_returned) as Hrun
    by (vm_compute; reflexivity).
  split; [exact Hrun|].
  destruct (RunModules_no_deadlock _ _ _ _ Hrun) as (_ & Hsend & _).
  apply (Hsend 0 {| pc := GReport; err := Some (errorString "test-error-1") |}
           (errorString "test-error-1")); reflexivity.
Defined.

(** * Further properties of the runner *)

(** X1: what the join does guarantee.  Once [errCh] is closed, and so
    whenever [RunModules] has returned, the outer goroutine has launched
    one goroutine per module, the WaitGroup counter is back to 0, and every
    module goroutine has called [wg.Done()]: its [Start] has returned and
    [err] holds the value returned. *)
Theorem join_waits_for_every_Start modules ctx sched s :
  run modules sched (init ctx) = Some s ->
  (main s = MReturned -> closed s = true) /\
  (closed s = true ->
   outer s = OEnd /\ wg s = 0%Z /\ length (gs s) = length modules /\
   forall i m, modules !! i = Some m ->
     exists g c, gs s !! i = Some g /\ (pc g = GOnce \/ pc g = GEnd) /\
                 Start m c = Some (err g)).
Proof.
  intros Hrun. destruct (run_invariants _ _ _ _ Hrun) as [HI _].
  pose proof (inv_closed _ _ HI) as Hc. pose proof (inv_main _ _ HI) as Hm.
  split.
  { intros Hret. rewrite Hret in Hm. by rewrite Hc, Hm. }
  intros Hcl. rewrite Hcl in Hc.
  assert (outer s = OEnd) as Ho by (destruct (outer s); done).
  pose proof (inv_gs _ _ HI) as Hgs. pose proof (inv_wg _ _ HI) as Hwg.
  pose proof (inv_joined _ _ HI) as Hj. rewrite Ho in Hgs, Hwg, Hj. simpl in *.
  specialize (Hj eq_refl). split; [done|]. split; [lia|]. split; [done|].
  intros i m Hi. destruct (lookup_lt_is_Some_2 (gs s) i) as [g Hg].
  { rewrite Hgs. by eapply lookup_lt_Some. }
  assert (before_done g = false) as Hb.
  { destruct (before_done g) eqn:Hb; [|done].
    pose proof (pending_pos _ _ _ Hg Hb). lia. }
  pose proof (inv_err _ _ HI _ _ Hg) as He. unfold before_done in Hb.
  destruct (pc g) eqn:Hpc; try done; destruct He as (m' & c & ? & ? & _);
    simplify_eq; exists g, c; eauto.
Qed.

(** How the context of the modules can become cancelled in one step. *)
Lemma step_cancels modules s l s' :
  step modules s l = Some s' -> ctx_done s = false -> ctx_done s' = true ->
  l = LParentCancel \/
  exists i g, l = LOnceFire i /\ gs s !! i = Some g /\ pc g = GOnce.
Proof.
  intros H Hc Hc'. destruct s as [m r o g w c on cd p pn]. simpl in Hc. subst cd.
  step_cases H; simpl in *; try done; first [by left | right; by eexists _, _].
Qed.

(** Modules that all block until the cancellation stay blocked as long as
    nothing cancels the caller's context. *)
Lemma blocked_modules_stay_blocked modules ctx sched s :
  Done ctx = false ->
  (forall m, m ∈ modules -> Start m false = None) ->
  LParentCancel ∉ sched ->
  run modules sched (init ctx) = Some s ->
  ctx_done s = false /\ forall i g, gs s !! i = Some g -> pc g = GStart.
Proof.
  intros Hctx Hblock. revert s.
  induction sched as [|l sched IH] using rev_ind; intros s Hno H.
  - simplify_eq/=. split; [done|]. by intros i g.
  - apply run_snoc in H as (s1 & H1 & Hstep).
    destruct (IH s1) as [Hc Hall]; [|done|].
    { intros Hin. apply Hno, elem_of_app. by left. }
    assert (l <> LParentCancel) as Hl.
    { intros ->. apply Hno, elem_of_app. right. by left. }
    destruct s1 as [m r o g w c on cd p pn]. simpl in *. subst cd.
    step_cases Hstep; simpl; try done;
      try (match goal with
           | Hl : g !! _ = Some _ |- _ => apply Hall in Hl; done
           end).
    + split; [done|]. intros i g' [(_ & Hg)|(_ & <-)]%lookup_snoc_Some; eauto.
    + exfalso. match goal with
        | Hm : modules !! _ = Some ?m, Hs : Start ?m false = Some _ |- _ =>
            apply list_elem_of_lookup_2 in Hm; rewrite (Hblock _ Hm) in Hs; done
        end.
Qed.

Lemma blocked_modules_never_return modules ctx sched s :
  Done ctx = false ->
  (forall m, m ∈ modules -> Start m false = None) ->
  LParentCancel ∉ sched ->
  run modules sched (init ctx) = Some s ->
  modules <> [] -> RunModules ctx modules sched = None.
Proof.
  intros Hctx Hblock Hno Hrun Hne.
  destruct (blocked_modules_stay_blocked _ _ _ _ Hctx Hblock Hno Hrun) as [_ Hall].
  unfold RunModules. rewrite Hrun. simpl.
  destruct (main s) eqn:Hm; try done. exfalso.
  destruct (run_invariants _ _ _ _ Hrun) as [HI _].
  destruct (returned_joined _ _ HI Hm) as [Hlen Hjoin].
  destruct (lookup_lt_is_Some_2 (gs s) 0) as [g Hg].
  { rewrite Hlen. destruct modules; [done|simpl; lia]. }
  specialize (Hjoin _ _ Hg). unfold before_done in Hjoin.
  by rewrite (Hall _ _ Hg) in Hjoin.
Qed.

(** X2: if every module blocks until the cancellation and nothing cancels
    the caller's context, no [Start] ever returns, the context is never
    cancelled, and [RunModules] with at least one module never returns. *)
Theorem all_blocked_never_returns modules ctx sched s :
  Done ctx = false ->
  (forall m, m ∈ modules -> Start m false = None) ->
  LParentCancel ∉ sched ->
  run modules sched (init ctx) = Some s ->
  ctx_done s = false /\
  (forall i g, gs s !! i = Some g -> pc g = GStart) /\
  (modules <> [] -> RunModules ctx modules sched = None).
Proof.
  intros Hctx Hblock Hno Hrun.
  destruct (blocked_modules_stay_blocked _ _ _ _ Hctx Hblock Hno Hrun) as [Hc Hall].
  split; [done|]. split; [done|]. intros Hne.
  by eapply blocked_modules_never_return.
Qed.

(** [context.Background()] is never cancelled. *)
Lemma Background_never_cancelled modules sched s :
  run modules sched (init Background) = Some s -> LParentCancel ∉ sched.
Proof.
  revert s. induction sched as [|l sched IH] using rev_ind; intros s H;
    [apply not_elem_of_nil|].
  apply run_snoc in H as (s1 & H1 & Hstep).
  destruct (run_invariants _ _ _ _ H1) as [HI1 _]. specialize (IH _ H1).
  intros [?|Hl]%elem_of_app; [done|]. apply list_elem_of_singleton in Hl as <-.
  unfold step in Hstep.
  by rewrite (inv_panic _ _ HI1), (run_Background _ _ _ H1) in Hstep.
Qed.

(** C8, as stated, fails for two modules that both wait for the
    cancellation, run under [context.Background()]: each module's [Start]
    returns given the cancellation signal, but nothing gives the signal.
    Once both goroutines are launched no step at all is left, with the
    caller in its range loop and both [Start] calls blocked, and
    [RunModules] returns under no schedule. *)
Lemma waiting_modules_never_return :
  let modules := [waitStopModule 0 None; waitStopModule 1 None] in
  let s := {| main := MRange; result := None; outer := OWait;
              gs := [ {| pc := GStart; err := None |};
                      {| pc := GStart; err := None |} ];
              wg := 2; closed := false; once := false; ctx_done := false;
              parent := Background; panicked := false |} in
  (forall m, m ∈ modules -> Start m true = Some None) /\
  run modules (tests.launch 2) (init Background) = Some s /\
  (forall l, step modules s l = None) /\
  (forall sched, RunModules Background modules sched = None).
Proof.
  intros modules s.
  split; [|split; [vm_compute; reflexivity|split;
    [intros [| |[|[|i]]|[|[|i]]|[|[|i]]|[|[|i]]|[|[|i]]|[|[|i]]|]; reflexivity|]]];
    revert modules; clear s; intros modules.
  2:{ intros sched.
      destruct (run modules sched (init Background)) as [s|] eqn:Hrun.
      - apply (blocked_modules_never_return modules Background sched s); try done.
        + intros m Hm. unfold modules in Hm.
          repeat (apply elem_of_cons in Hm as [->|Hm]); try done.
          by apply elem_of_nil in Hm.
        + by eapply Background_never_cancelled.
      - unfold RunModules. by rewrite Hrun. }
  intros m Hm. unfold modules in Hm.
  repeat (apply elem_of_cons in Hm as [->|Hm]); try done.
  by apply elem_of_nil in Hm.
Qed.

(** While the caller's context cannot be cancelled, the context of the
    modules is cancelled exactly if the Once has run. *)
Lemma Background_ctx_done modules sched s :
  run modules sched (init Background) = Some s -> ctx_done s = once s.
Proof.
  intros Hrun. destruct (run_invariants _ _ _ _ Hrun) as [HI _].
  pose proof (run_Background _ _ _ Hrun) as Hp.
  destruct (once s) eqn:Hon; [by apply (inv_once _ _ HI)|].
  destruct (ctx_done s) eqn:Hc; [|done].
  destruct (inv_ctx _ _ HI Hc) as [?|Hd]; [congruence|]. by rewrite Hp in Hd.
Qed.

(** Under [context.Background()], if the context of the modules is
    cancelled, some module's [Start] has returned without the context being
    cancelled and its goroutine has run to its end. *)
Lemma Background_canceller modules sched s :
  run modules sched (init Background) = Some s ->
  ctx_done s = true ->
  exists i g m, gs s !! i = Some g /\ pc g = GEnd /\
                modules !! i = Some m /\ Start m false = Some (err g).
Proof.
  revert s. induction sched as [|l sched IH] using rev_ind; intros s Hrun Hc;
    [by simplify_eq/=|].
  apply run_snoc in Hrun as (s1 & H1 & Hstep).
  destruct (run_invariants _ _ _ _ H1) as [HI _].
  destruct (ctx_done s1) eqn:Hc1.
  - destruct (IH _ H1 Hc1) as (i & g & m & Hg & Hpc & Hm & Hs).
    exists i, g, m. split; [|by repeat split].
    destruct s1 as [m1 r o gl w c on cd p pn]. simpl in *.
    step_cases Hstep; simpl; try done;
      try (apply lookup_app_l_Some; done);
      rewrite list_lookup_insert_ne; try done; intros ->; simplify_eq/=.
  - destruct (step_cancels _ _ _ _ Hstep Hc1 Hc) as [->|(i & g & -> & Hg & Hpc)].
    { unfold step in Hstep. rewrite (inv_panic _ _ HI), (run_Background _ _ _ H1) in Hstep.
      done. }
    pose proof (inv_err _ _ HI _ _ Hg) as He. rewrite Hpc in He.
    destruct He as (m & c & Hm & Hs & Hcc).
    destruct c; [specialize (Hcc eq_refl); congruence|].
    exists i, {| pc := GEnd; err := err g |}, m.
    unfold step, step_module in Hstep. rewrite (inv_panic _ _ HI), Hg in Hstep.
    simpl in Hstep. rewrite Hpc in Hstep. destruct (once s1); [done|].
    simplify_eq/=. split; [|by repeat split].
    apply list_lookup_insert_eq. by eapply lookup_lt_Some.
Qed.

(** X3: no spurious cancellation.  Under [context.Background()] the context
    handed to the modules is cancelled only by [stopCloseOnce]: if it is
    cancelled, [cancel()] has been called, and some module's [Start] has
    returned without the context being cancelled, its goroutine having
    then delivered its error, called [wg.Done()] and run the Once. *)
Theorem cancelled_only_after_a_module_stopped modules sched s :
  run modules sched (init Background) = Some s ->
  ctx_done s = true ->
  once s = true /\ fires sched = 1 /\
  exists i g m, gs s !! i = Some g /\ pc g = GEnd /\
                modules !! i = Some m /\ Start m false = Some (err g).
Proof.
  intros Hrun Hc. pose proof (Background_ctx_done _ _ _ Hrun) as Hon.
  rewrite Hc in Hon. destruct (run_invariants _ _ _ _ Hrun) as [_ HT].
  split; [done|]. split; [by rewrite (tr_fires _ _ HT), <-Hon|].
  by eapply Background_canceller.
Qed.

(** When only module [k] can return before the cancellation, and it
    returns an error, the cancellation comes after the arrival of that
    error. *)
Lemma cancelled_after_arrival modules k mk sched s :
  modules !! k = Some mk ->
  (forall c, Start mk c <> Some None) ->
  (forall j m, j <> k -> modules !! j = Some m -> Start m false = None) ->
  run modules sched (init Background) = Some s ->
  ctx_done s = true -> k ∈ arrivals sched.
Proof.
  intros Hk Hmk Hothers Hrun Hc.
  destruct (Background_canceller _ _ _ Hrun Hc) as (i & g & m & Hg & Hpc & Hm & Hs).
  destruct (run_invariants _ _ _ _ Hrun) as [_ HT].
  destruct (decide (i = k)) as [->|Hne].
  - apply (tr_sent _ _ HT). exists g. split; [done|]. unfold sent. rewrite Hpc.
    simplify_eq. destruct (err g) eqn:He; [done|]. by destruct (Hmk false).
  - rewrite (Hothers _ _ Hne Hm) in Hs. done.
Qed.

Lemma first_arrival modules k mk sched s :
  modules !! k = Some mk ->
  (forall c, Start mk c <> Some None) ->
  (forall j m, j <> k -> modules !! j = Some m -> Start m false = None) ->
  run modules sched (init Background) = Some s ->
  arrivals sched = [] \/ exists rest, arrivals sched = k :: rest.
Proof.
  intros Hk Hmk Hothers. revert s.
  induction sched as [|l sched IH] using rev_ind; intros s Hrun; [by left|].
  apply run_snoc in Hrun as (s1 & H1 & Hstep). specialize (IH _ H1).
  rewrite arrivals_snoc. destruct l; rewrite ?app_nil_r; try done.
  destruct IH as [Hnil|[rest Hrest]].
  2:{ right. exists (rest ++ [i]). by rewrite Hrest. }
  right. exists []. rewrite Hnil. simpl. f_equal.
  destruct (decide (i = k)) as [|Hne]; [done|]. exfalso.
  destruct (run_invariants _ _ _ _ H1) as [HI _].
  unfold step in Hstep. rewrite (inv_panic _ _ HI) in Hstep.
  destruct (gs s1 !! i) as [g|] eqn:Hg; [|done]. simpl in Hstep.
  pose proof (inv_err _ _ HI _ _ Hg) as He.
  destruct (pc g) eqn:Hpc; try done. destruct He as (m & c & Hm & Hs & Hc).
  destruct c; [|by rewrite (Hothers _ _ Hne Hm) in Hs].
  pose proof (cancelled_after_arrival _ _ _ _ _ Hk Hmk Hothers H1 (Hc eq_refl)) as Hin.
  rewrite Hnil in Hin. by apply elem_of_nil in Hin.
Qed.

(** X4: the root cause comes first.  Under [context.Background()], when
    module [k] is the only one that can return before the cancellation and
    it returns the error [e], the error of [k] is the first to arrive, so
    the errors of the value returned by [RunModules] start with those of
    [e], whatever the other modules return afterwards. *)
Theorem root_cause_first modules k mk e sched r :
  modules !! k = Some mk ->
  (forall c r', Start mk c = Some r' -> r' = Some e) ->
  (forall j m, j <> k -> modules !! j = Some m -> Start m false = None) ->
  RunModules Background modules sched = Some r ->
  (exists rest, arrivals sched = k :: rest) /\
  (exists rest, Errors_opt r = Errors e ++ rest).
Proof.
  intros Hk Hmk Hothers (s & Hrun & Hm & <-)%RunModules_inv.
  destruct (run_invariants _ _ _ _ Hrun) as [HI HT].
  destruct (returned_joined _ _ HI Hm) as [Hlen _].
  destruct (lookup_lt_is_Some_2 (gs s) k) as [g Hg].
  { rewrite Hlen. by eapply lookup_lt_Some. }
  assert (err g = Some e) as He.
  { destruct (returned_from_Start _ _ HI Hm _ _ Hg) as (m & c & Hmk' & Hs).
    simplify_eq. by apply Hmk in Hs. }
  assert (k ∈ arrivals sched) as Hin.
  { apply (arrivals_after_join _ _ _ _ Hrun Hm). exists e. unfold err_at.
    by rewrite Hg. }
  destruct (first_arrival modules k mk sched s) as [Hnil|[rest Hrest]]; try done.
  { intros c Hc. apply Hmk in Hc. done. }
  { rewrite Hnil in Hin. by apply elem_of_nil in Hin. }
  split; [by exists rest|].
  rewrite (tr_result _ _ HT), (Errors_foldl _ None). simpl.
  unfold arrived. rewrite Hrest. csimpl. unfold err_at at 1. rewrite Hg. simpl.
  rewrite He. csimpl. eauto.
Qed.

(** X5: a context that is already cancelled.  When the caller's context is
    done at the call, the derived context is done from the start, so every
    [Start] that has returned has returned what the module returns under
    cancellation; if every module returns under cancellation, every
    complete execution returns. *)
Theorem cancelled_context_reaches_every_module modules ctx sched s :
  Done ctx = true ->
  run modules sched (init ctx) = Some s ->
  ctx_done s = true /\
  (forall i g, gs s !! i = Some g -> pc g <> GStart ->
     exists m, modules !! i = Some m /\ Start m true = Some (err g)) /\
  ((forall m, m ∈ modules -> Start m true <> None) ->
   quiescent modules s -> exists r, RunModules ctx modules sched = Some r).
Proof.
  intros Hctx Hrun.
  assert (ctx_done s = true) as Hc by (by eapply run_ctx_done).
  split; [done|]. split.
  - clear Hc. revert s Hrun. induction sched as [|l sched IH] using rev_ind; intros s H.
    { simplify_eq/=. by intros i g. }
    apply run_snoc in H as (s1 & H1 & Hstep). specialize (IH _ H1).
    assert (ctx_done s1 = true) as Hc1 by (by eapply run_ctx_done).
    destruct s1 as [m r o g w c on cd p pn]. simpl in *. subst cd.
    step_cases Hstep; simpl; try done.
    1: intros j g' [(_ & Hg)|(_ & <-)]%lookup_snoc_Some; [by apply IH|done].
    all: intros j g' [(-> & <- & _)|(_ & Hg)]%list_lookup_insert_Some Hpc;
      [|by apply IH]; simpl; eauto.
    all: match goal with
         | Hl : _ !! _ = Some _ |- _ => by apply IH in Hl
         end.
  - intros Hret Hq. destruct (run_invariants _ _ _ _ Hrun) as [HI _].
    exists (result s). apply RunModules_intro; [done|].
    apply (quiescent_returned modules); [done..|].
    apply (quiescent_unblocked modules); auto.
Qed.



(** After the join, the errors that arrived are, up to their order, the
    non-nil errors held by the goroutines. *)
Lemma arrived_Permutation modules ctx sched s :
  run modules sched (init ctx) = Some s -> main s = MReturned ->
  arrived sched s ≡ₚ omap err (gs s).
Proof.
  intros Hrun Hm. destruct (run_invariants _ _ _ _ Hrun) as [HI HT].
  pose proof (arrivals_after_join _ _ _ _ Hrun Hm) as Harr.
  unfold arrived.
  assert (omap err (gs s) = omap (err_at (gs s)) (seq 0 (length (gs s)))) as ->.
  { generalize (gs s). intros l. induction l as [|g l IH] using rev_ind; [done|].
    rewrite length_app. change (length [g]) with 1.
    rewrite Nat.add_1_r, seq_S, !omap_app, IH. simpl. f_equal.
    - apply arrived_ext. intros j [_ Hj]%elem_of_seq. unfold err_at.
      by rewrite lookup_app_l by lia.
    - csimpl. unfold err_at. by rewrite list_lookup_middle. }
  assert (arrivals sched
          ≡ₚ filter (fun i => is_Some (err_at (gs s) i)) (seq 0 (length (gs s)))) as ->.
  { apply NoDup_Permutation; [apply (tr_nodup _ _ HT)| |].
    - apply NoDup_filter, NoDup_seq.
    - intros i. rewrite Harr, list_elem_of_filter, elem_of_seq. unfold err_at. split.
      + intros [e He]. split; [by eexists|].
        destruct (gs s !! i) eqn:Hg; [|done]. apply lookup_lt_Some in Hg. lia.
      + by intros [[e He] _]; exists e. }
  generalize (seq 0 (length (gs s))). intros l.
  induction l as [|i l IH]; [done|]. rewrite filter_cons. csimpl.
  destruct (err_at (gs s) i) as [e|] eqn:He.
  - rewrite decide_True by by eexists. csimpl. rewrite He. by f_equiv.
  - rewrite decide_False by by intros [? ?]. done.
Qed.

(** X7: the aggregated errors do not depend on the schedule beyond their
    order: the errors that arrived are, up to a permutation, the non-nil
    errors held by the goroutines, in the order of the modules. *)
Theorem arrived_is_a_permutation modules ctx sched r :
  RunModules ctx modules sched = Some r ->
  exists s, run modules sched (init ctx) = Some s /\
    arrived sched s ≡ₚ omap err (gs s) /\
    Errors_opt r ≡ₚ mjoin (Errors <$> omap err (gs s)).
Proof.
  intros (s & Hrun & Hm & <-)%RunModules_inv. exists s.
  destruct (run_invariants _ _ _ _ Hrun) as [_ HT].
  pose proof (arrived_Permutation _ _ _ _ Hrun Hm) as Hperm.
  split; [done|]. split; [done|].
  rewrite (tr_result _ _ HT), (Errors_foldl _ None). simpl. by rewrite Hperm.
Qed.

(** X9: a single failure is returned as it is.  When exactly one module's
    [Start] returned an error, [RunModules] returns that very error, not a
    combined one, whatever the number of modules and the schedule. *)
Theorem single_failure_unwrapped modules ctx sched r e :
  RunModules ctx modules sched = Some r ->
  (forall s, run modules sched (init ctx) = Some s -> omap err (gs s) = [e]) ->
  r = Some e.
Proof.
  intros (s & Hrun & Hm & <-)%RunModules_inv Hone.
  destruct (run_invariants _ _ _ _ Hrun) as [_ HT].
  pose proof (arrived_Permutation _ _ _ _ Hrun Hm) as Hperm.
  rewrite (Hone _ Hrun) in Hperm. apply Permutation_singleton_r in Hperm.
  by rewrite (tr_result _ _ HT), Hperm.
Qed.

(** * Further properties of the registration pass *)

Lemma bound_StringVar fs p name value w name' :
  bound fs name' (StringVar fs p name value w)
  = if decide (name = name') then Some p else bound fs name' w.
Proof.
  unfold bound, StringVar. simpl. rewrite lookup_insert_eq. simpl.
  rewrite lookup_insert. case_decide; [done|].
  by destruct (flagsets w !! fs).
Qed.

Lemma BindModuleFlags_cons m modules c tw :
  BindModuleFlags (m :: modules) c tw
  = BindModuleFlags modules c
      (tw.1 ++ [EvBindFlags (addr m) (Flags c)], BindFlags m (Flags c) tw.2).
Proof. done. Qed.

Lemma bind_flagModules (specs : list flagSpec) c tw :
  let w1 := (BindModuleFlags (flagModuleOf <$> specs) c tw).2 in
  (forall p, p ∉ specs.*1.*2 -> heap w1 !! p = heap tw.2 !! p) /\
  (forall n, n ∉ specs.*1.*1 -> bound (Flags c) n w1 = bound (Flags c) n tw.2) /\
  (NoDup specs.*1.*1 ->
   forall x, x ∈ specs ->
     heap w1 !! x.1.2 = Some "default" /\ bound (Flags c) x.1.1 w1 = Some x.1.2).
Proof.
  cbv zeta. revert tw. induction specs as [|[[n0 p0] v0] specs IH]; intros tw.
  { split; [done|]. split; [done|]. by intros _ x ?%elem_of_nil. }
  rewrite !fmap_cons, BindModuleFlags_cons.
  set (tw' := (tw.1 ++ [EvBindFlags (addr (flagModuleOf (n0, p0, v0))) (Flags c)],
               BindFlags (flagModuleOf (n0, p0, v0)) (Flags c) tw.2)).
  destruct (IH tw') as (Hheap & Hbound & Hin). simpl in *.
  split; [|split].
  - intros p [Hp0 Hp]%not_elem_of_cons. rewrite (Hheap _ Hp). unfold tw'. simpl.
    by rewrite lookup_insert_ne.
  - intros n [Hn0 Hn]%not_elem_of_cons. rewrite (Hbound _ Hn). unfold tw'. simpl.
    rewrite bound_StringVar. by rewrite decide_False.
  - intros [Hn0 Hnd]%NoDup_cons x [->|Hx]%elem_of_cons; [|by apply Hin].
    cbn [fst snd]. split.
    + destruct (decide (p0 ∈ specs.*1.*2)) as [Hp|Hp].
      * apply list_elem_of_fmap in Hp as ([n1 p1] & -> & Hp).
        apply list_elem_of_fmap in Hp as ([[n2 p2] v2] & [= <- <-] & Hp).
        by destruct (Hin Hnd _ Hp).
      * rewrite (Hheap _ Hp). unfold tw'. simpl. by rewrite lookup_insert_eq.
    + rewrite (Hbound _ Hn0). unfold tw'. simpl.
      by rewrite bound_StringVar, decide_True.
Qed.

Lemma flag_name_dashes n : plain_name n = true -> flag_name ("--" ++ n) = Some n.
Proof.
  intros H. change (("--" ++ n)%string) with (String "-" (String "-" n)).
  simpl. by rewrite H.
Qed.

Lemma parse_flagArgs (specs : list flagSpec) fs w :
  NoDup specs.*1.*2 ->
  (forall x, x ∈ specs -> plain_name x.1.1 = true) ->
  (forall x, x ∈ specs -> bound fs x.1.1 w = Some x.1.2) ->
  exists w', ParseFlags fs (flagArgs specs) w = Some w' /\
    flagsets w' = flagsets w /\
    (forall p, p ∉ specs.*1.*2 -> heap w' !! p = heap w !! p) /\
    (forall x, x ∈ specs -> heap w' !! x.1.2 = Some x.2).
Proof.
  revert w. induction specs as [|[[n0 p0] v0] specs IH]; intros w Hnd Hplain Hb.
  { exists w. repeat split; try done. by intros x ?%elem_of_nil. }
  simpl in Hnd. apply NoDup_cons in Hnd as [Hp0 Hnd].
  pose proof (Hb (n0, p0, v0) ltac:(left)) as Hb0. simpl in Hb0.
  pose proof (Hplain (n0, p0, v0) ltac:(left)) as Hn0. simpl in Hn0.
  change (flagArgs ((n0, p0, v0) :: specs))
    with (("--" ++ n0)%string :: v0 :: flagArgs specs).
  cbn [ParseFlags]. rewrite (flag_name_dashes _ Hn0). simpl.
  unfold bound in Hb0. unfold Set_.
  destruct (flagsets w !! fs) as [flags|] eqn:Hfs; [|done]. simpl in *.
  rewrite Hb0. simpl.
  set (w1 := {| heap := <[p0:=v0]> (heap w); flagsets := flagsets w |}).
  destruct (IH w1 Hnd) as (w' & Hparse & Hfl & Hother & Hval).
  { intros x Hx. apply Hplain. by right. }
  { intros x Hx. unfold bound, w1. simpl. apply (Hb x). by right. }
  exists w'. split; [done|]. split; [done|]. split.
  - intros p [Hne Hp]%not_elem_of_cons. rewrite (Hother _ Hp). unfold w1. simpl.
    by rewrite lookup_insert_ne.
  - intros x [->|Hx]%elem_of_cons; [|by apply Hval]. simpl.
    rewrite (Hother _ Hp0). unfold w1. simpl. by rewrite lookup_insert_eq.
Qed.

(** X8: registration binds by reference.  For flag modules with distinct
    flag names, new to the command (pflag panics when a flag is defined
    twice) and plain (not empty, not starting with '-' or '=', without
    '=', so that pflag reads [--name value] as the flag [name] with the
    value [value]), and with distinct instances, [BindModuleFlags] binds
    each flag to the field of its own instance, which holds the default
    value; parsing [--name value] for each of them then succeeds and leaves
    in each instance's field the value given to its flag.  No other cell is
    written: the field of a copy of an instance would not receive the
    value. *)
Theorem BindModuleFlags_binds_by_reference (specs : list flagSpec) c tr w :
  NoDup specs.*1.*1 -> NoDup specs.*1.*2 ->
  (forall n, n ∈ specs.*1.*1 -> bound (Flags c) n w = None) ->
  (forall n, n ∈ specs.*1.*1 -> plain_name n = true) ->
  let w1 := (BindModuleFlags (flagModuleOf <$> specs) c (tr, w)).2 in
  (forall x, x ∈ specs ->
     heap w1 !! x.1.2 = Some "default" /\ bound (Flags c) x.1.1 w1 = Some x.1.2) /\
  exists w2, ParseFlags (Flags c) (flagArgs specs) w1 = Some w2 /\
    (forall x, x ∈ specs -> heap w2 !! x.1.2 = Some x.2) /\
    (forall p, p ∉ specs.*1.*2 -> heap w2 !! p = heap w !! p).
Proof.
  intros Hn Hp _ Hplain w1.
  destruct (bind_flagModules specs c (tr, w)) as (Hheap & _ & Hin).
  fold w1 in Hheap, Hin. specialize (Hin Hn). split; [done|].
  destruct (parse_flagArgs specs (Flags c) w1 Hp) as (w2 & Hparse & _ & Hother & Hval).
  { intros x Hx. apply Hplain. apply list_elem_of_fmap. exists x.1.
    split; [done|]. apply list_elem_of_fmap. by exists x. }
  { intros x Hx. by destruct (Hin _ Hx). }
  exists w2. split; [done|]. split; [done|].
  intros p Hnot. by rewrite (Hother _ Hnot), (Hheap _ Hnot).
Qed.

(** ** The further properties at the scenarios of the tests *)

Lemma join_waits_for_every_Start_witness :
  run tests.multipleErrors tests.multipleErrors_schedule (init Background)
  = Some tests.multipleErrors_final /\
  closed tests.multipleErrors_final = true /\
  wg tests.multipleErrors_final = 0%Z /\
  length (gs tests.multipleErrors_final) = length tests.multipleErrors.
Proof.
  assert (run tests.multipleErrors tests.multipleErrors_schedule (init Background)
          = Some tests.multipleErrors_final) as Hrun by (vm_compute; reflexivity).
  split; [exact Hrun|]. split; [reflexivity|].
  destruct (join_waits_for_every_Start _ _ _ _ Hrun) as [_ H].
  destruct (H eq_refl) as (_ & Hwg & Hlen & _). by split.
Defined.

Lemma all_blocked_never_returns_witness :
  let modules := [waitStopModule 0 None; waitStopModule 1 None] in
  let s := {| main := MRange; result := None; outer := OWait;
              gs := [ {| pc := GStart; err := None |}; {| pc := GStart; err := None |} ];
              wg := 2; closed := false; once := false; ctx_done := false;
              parent := Background; panicked := false |} in
  run modules (tests.launch 2) (init Background) = Some s /\
  RunModules Background modules (tests.launch 2) = None.
Proof.
  intros modules s.
  assert (run modules (tests.launch 2) (init Background) = Some s) as Hrun
    by (vm_compute; reflexivity).
  split; [exact Hrun|].
  destruct (all_blocked_never_returns modules Background (tests.launch 2) s eq_refl)
    as (_ & _ & H); [| |exact Hrun|by apply H].
  - intros m Hm. unfold modules in Hm.
    repeat (apply elem_of_cons in Hm as [->|Hm]); try done. by apply elem_of_nil in Hm.
  - intros Hin. unfold tests.launch in Hin. simpl in Hin.
    repeat (apply elem_of_cons in Hin as [Hin|Hin]; [done|]). by apply elem_of_nil in Hin.
Defined.

Lemma cancelled_only_after_a_module_stopped_witness :
  run tests.multipleErrors tests.multipleErrors_schedule (init Background)
  = Some tests.multipleErrors_final /\
  ctx_done tests.multipleErrors_final = true /\
  fires tests.multipleErrors_schedule = 1.
Proof.
  assert (run tests.multipleErrors tests.multipleErrors_schedule (init Background)
          = Some tests.multipleErrors_final) as Hrun by (vm_compute; reflexivity).
  split; [exact Hrun|]. split; [reflexivity|].
  by destruct (cancelled_only_after_a_module_stopped _ _ _ Hrun eq_refl) as (_ & ? & _).
Defined.

Lemma root_cause_first_witness :
  RunModules Background tests.multipleErrors tests.multipleErrors_schedule
  = Some (Some (multiError ["test-error-1"; "test-error-2"])) /\
  exists rest, ["test-error-1"; "test-error-2"] = ["test-error-1"] ++ rest.
Proof.
  assert (RunModules Background tests.multipleErrors tests.multipleErrors_schedule
          = Some (Some (multiError ["test-error-1"; "test-error-2"]))) as Hr
    by (vm_compute; reflexivity).
  split; [exact Hr|].
  destruct (root_cause_first tests.multipleErrors 0
              (noopModule 0 (Some (errorString "test-error-1")))
              (errorString "test-error-1") tests.multipleErrors_schedule
              (Some (multiError ["test-error-1"; "test-error-2"])) eq_refl)
    as [_ H]; [| |exact Hr|exact H].
  - intros c r' Hs. simpl in Hs. congruence.
  - intros [|[|j]] m Hne Hm; [done| |done]. simpl in Hm. by injection Hm as <-.
Defined.

Lemma cancelled_context_reaches_every_module_witness :
  let modules := [waitStopModule 0 (Some (errorString "stopped"))] in
  let sched := tests.launch 1 ++ tests.with_error 0 true ++ tests.finish in
  let s := {| main := MReturned; result := Some (errorString "stopped"); outer := OEnd;
              gs := [ {| pc := GEnd; err := Some (errorString "stopped") |} ];
              wg := 0; closed := true; once := true; ctx_done := true;
              parent := WithCancel true; panicked := false |} in
  run modules sched (init (WithCancel true)) = Some s /\
  exists r, RunModules (WithCancel true) modules sched = Some r.
Proof.
  intros modules sched s.
  assert (run modules sched (init (WithCancel true)) = Some s) as Hrun
    by (vm_compute; reflexivity).
  split; [exact Hrun|].
  destruct (cancelled_context_reaches_every_module modules (WithCancel true) sched s
              eq_refl Hrun) as (_ & _ & H).
  apply H.
  - intros m Hm. unfold modules in Hm.
    apply list_elem_of_singleton in Hm as ->. done.
  - intros l _. destruct l as [| |i|i|i|i|i|i|]; try reflexivity; by destruct i.
Defined.


Lemma arrived_is_a_permutation_witness :
  RunModules Background tests.multipleErrors tests.multipleErrors_schedule
  = Some (Some (multiError ["test-error-1"; "test-error-2"])) /\
  exists s, run tests.multipleErrors tests.multipleErrors_schedule (init Background)
            = Some s /\
            ["test-error-1"; "test-error-2"] ≡ₚ mjoin (Errors <$> omap err (gs s)).
Proof.
  assert (RunModules Background tests.multipleErrors tests.multipleErrors_schedule
          = Some (Some (multiError ["test-error-1"; "test-error-2"]))) as Hr
    by (vm_compute; reflexivity).
  split; [exact Hr|].
  destruct (arrived_is_a_permutation _ _ _ _ Hr) as (s & Hrun & _ & H).
  exists s. split; [exact Hrun|exact H].
Defined.

Lemma BindModuleFlags_binds_by_reference_witness :
  let specs : list flagSpec := [("host", 1, "localhost"); ("port", 2, "8080")] in
  NoDup specs.*1.*1 /\ NoDup specs.*1.*2 /\
  exists w2,
    ParseFlags 0 (flagArgs specs)
      (BindModuleFlags (flagModuleOf <$> specs) tests.testCmd ([], tests.emptyWorld)).2
    = Some w2 /\
    heap w2 !! 1 = Some "localhost" /\ heap w2 !! 2 = Some "8080".
Proof.
  intros specs.
  assert (NoDup specs.*1.*1) as Hn.
  { unfold specs. simpl. apply NoDup_cons. split; [|apply NoDup_singleton].
    intros H%list_elem_of_singleton. discriminate. }
  assert (NoDup specs.*1.*2) as Hp.
  { unfold specs. simpl. apply NoDup_cons. split; [|apply NoDup_singleton].
    intros H%list_elem_of_singleton. discriminate. }
  split; [exact Hn|]. split; [exact Hp|].
  destruct (BindModuleFlags_binds_by_reference specs tests.testCmd [] tests.emptyWorld
              Hn Hp) as (_ & w2 & Hparse & Hval & _).
  { intros n _. reflexivity. }
  { intros n Hin. unfold specs in Hin. simpl in Hin.
    repeat (apply elem_of_cons in Hin as [->|Hin]); try reflexivity.
    by apply elem_of_nil in Hin. }
  exists w2. split; [exact Hparse|]. split.
  - apply (Hval ("host", 1, "localhost")). by left.
  - apply (Hval ("port", 2, "8080")). right. by left.
Defined.

Lemma single_failure_unwrapped_witness :
  RunModules Background tests.singleError tests.singleError_schedule
  = Some (Some (errorString "test-error-1")) /\
  (forall s, run tests.singleError tests.singleError_schedule (init Background) = Some s ->
             omap err (gs s) = [errorString "test-error-1"]).
Proof.
  assert (forall s,
            run tests.singleError tests.singleError_schedule (init Background) = Some s ->
            omap err (gs s) = [errorString "test-error-1"]) as Hone.
  { intros s Hs. vm_compute in Hs. injection Hs as <-. reflexivity. }
  split; [|exact Hone].
  assert (exists r, RunModules Background tests.singleError tests.singleError_schedule
                    = Some r) as [r Hr] by (eexists; vm_compute; reflexivity).
  rewrite Hr. f_equal. exact (single_failure_unwrapped _ _ _ _ _ Hr Hone).
Defined.
